(** * Identity and conversation resolution: a shallow embedding

  The development follows the two halves of the repository:

  - the SQL migration (identity function [get_user_wallet_address], the
    row-level-security policies, the two message triggers
    [update_conversation_on_message] and
    [update_conversation_last_message], the bucket policies);
  - the [Messages] page (the state updaters of [initializeMessaging] and
    [handleSend], and [generateConversationsFromMessages]).

  The embedding comes first, grouped in modules; the facts follow. *)

From Stdlib Require Import List String Ascii Bool Arith ZArith NArith Lia.
From Stdlib Require Import Permutation Sorted.
Import ListNotations.

Local Open Scope string_scope.

(* ================================================================= *)
(** ** SQL values and built-ins used by the migration *)

Module Sql.

(** A [uuid] is a 128-bit number. *)
Definition uuid := N.

Definition hex_digit (n : N) : ascii :=
  match n with
  | 0%N => "0" | 1%N => "1" | 2%N => "2" | 3%N => "3"
  | 4%N => "4" | 5%N => "5" | 6%N => "6" | 7%N => "7"
  | 8%N => "8" | 9%N => "9" | 10%N => "a" | 11%N => "b"
  | 12%N => "c" | 13%N => "d" | 14%N => "e" | _ => "f"
  end%char.

(** [hex_field u hi len]: the [len] hexadecimal digits of [u] whose most
    significant nibble has index [hi] (nibble 0 is the least significant). *)
Fixpoint hex_field (u : N) (hi : nat) (len : nat) : string :=
  match len with
  | O => EmptyString
  | S len' =>
      String (hex_digit (N.land (N.shiftr u (4 * N.of_nat hi)) 15))
             (hex_field u (pred hi) len')
  end.

(** [u::text], the canonical 8-4-4-4-12 rendering. *)
Definition uuid_text (u : uuid) : string :=
  hex_field u 31 8 ++ "-" ++ hex_field u 23 4 ++ "-" ++ hex_field u 19 4
    ++ "-" ++ hex_field u 15 4 ++ "-" ++ hex_field u 11 12.

(** [s LIKE pat] on non-null operands: [%] matches any run of characters,
    [_] any single character, every other character itself.  (The escape
    character is not modelled; the migration's pattern has none.) *)
Fixpoint like (pat : string) : string -> bool :=
  match pat with
  | EmptyString =>
      fun s => match s with EmptyString => true | String _ _ => false end
  | String c pat' =>
      if Ascii.eqb c "%" then
        fix skip (s : string) : bool :=
          like pat' s
          || match s with EmptyString => false | String _ s' => skip s' end
      else if Ascii.eqb c "_" then
        fun s => match s with
                 | EmptyString => false
                 | String _ s' => like pat' s'
                 end
      else
        fun s => match s with
                 | EmptyString => false
                 | String d s' => Ascii.eqb c d && like pat' s'
                 end
  end.

(** SQL's three-valued [LIKE]: a null operand gives null. *)
Definition sql_like (s : option string) (pat : string) : option bool :=
  option_map (like pat) s.

(** The fields of [s] separated by the character [d]; never empty. *)
Fixpoint split (d : ascii) (s : string) : list string :=
  match s with
  | EmptyString => [EmptyString]
  | String c s' =>
      if Ascii.eqb c d then EmptyString :: split d s'
      else match split d s' with
           | f :: fs => String c f :: fs
           | [] => [String c EmptyString]
           end
  end.

(** [split_part(s, d, n)] for a one-character delimiter and [n >= 1]:
    the [n]-th field, the empty string when there are fewer fields. *)
Definition split_part (s : string) (d : ascii) (n : positive) : string :=
  nth (pred (Pos.to_nat n)) (split d s) EmptyString.

(** [COALESCE]: the first non-null argument. *)
Fixpoint coalesce {A} (xs : list (option A)) : option A :=
  match xs with
  | [] => None
  | Some x :: _ => Some x
  | None :: xs' => coalesce xs'
  end.

(** [CASE WHEN c THEN a ELSE b END]: only a true condition selects [a]. *)
Definition case_when {A} (c : option bool) (a b : A) : A :=
  match c with Some true => a | _ => b end.

(** [x = ANY(arr)] on non-null text. *)
Definition any_eq (x : string) (arr : list string) : bool :=
  existsb (String.eqb x) arr.

(** [arr @> ARRAY[x]]: containment of a one-element array. *)
Definition contains1 (arr : list string) (x : string) : bool :=
  existsb (String.eqb x) arr.

(** [c] occurs in [s]. *)
Fixpoint occurs (c : ascii) (s : string) : bool :=
  match s with
  | EmptyString => false
  | String d s' => Ascii.eqb c d || occurs c s'
  end.

(** A pattern with no wildcard. *)
Fixpoint literal (pat : string) : bool :=
  match pat with
  | EmptyString => true
  | String c pat' =>
      negb (Ascii.eqb c "%") && negb (Ascii.eqb c "_") && literal pat'
  end.

End Sql.

(* ================================================================= *)
(** ** Identity resolver *)

Module Auth.
Import Sql.

(** What the policies see of the authenticated caller: [auth.uid()] and
    [auth.email()] (the latter may be null). *)
Record principal := { uid : uuid; email : option string }.

Definition reserved_pattern : string := "%@kraken.web3".

(** What the pattern asks a string to end in. *)
Definition reserved_suffix : string := "@kraken.web3".

Definition get_user_wallet_address (p : principal) : option string :=
  coalesce
    [ case_when (sql_like (email p) reserved_pattern)
        (option_map (fun e => split_part e "@" 1) (email p))
        (Some (uuid_text (uid p))) ].

End Auth.

(* ================================================================= *)
(** ** Tables, row-level-security policies and triggers *)

Module Db.
Import Sql Auth.

(** Timestamps ([timestamptz]) are counted in microseconds. *)
Definition timestamptz := Z.

(** Modelled from the spec: the [conversations] table is created by an
    earlier migration that is not among the sources; its columns are those
    of the spec's schema, which this migration reads and writes.  No
    constraint on [participants] is declared there or here. *)
Record conversation := {
  conv_id : uuid;
  participants : list string;
  last_message : string;
  last_message_time : timestamptz;
  updated_at : timestamptz;
  is_group : bool;
  group_name : string;
  group_avatar : string
}.

(** Modelled from the spec: the [messages] table, created by an earlier
    migration, with the columns of the spec's schema. *)
Record message := {
  msg_id : uuid;
  conversation_id : option uuid;
  sender : string;
  receiver : string;
  content : string;
  created_at : timestamptz;
  status : string;
  error : string;
  retries : Z;
  encrypted : bool
}.

(** Modelled from the spec: the [attachments] table, of which the schema
    gives the reference to the message. *)
Record attachment := { message_id : uuid }.

(** A row of [storage.objects]. *)
Record storage_object := { bucket_id : string; name : string }.

Record db := {
  conversations : list conversation;
  messages : list message;
  attachments : list attachment;
  objects : list storage_object
}.

Definition empty_db : db :=
  {| conversations := []; messages := []; attachments := []; objects := [] |}.

Definition set_conversations (d : db) (cs : list conversation) : db :=
  {| conversations := cs; messages := messages d;
     attachments := attachments d; objects := objects d |}.

Definition set_messages (d : db) (ms : list message) : db :=
  {| conversations := conversations d; messages := ms;
     attachments := attachments d; objects := objects d |}.

(** *** Policies *)

Inductive command := SELECT | INSERT | UPDATE | DELETE.
Inductive role := anon | authenticated.

Definition command_eqb (a b : command) : bool :=
  match a, b with
  | SELECT, SELECT | INSERT, INSERT | UPDATE, UPDATE | DELETE, DELETE => true
  | _, _ => false
  end.

Definition role_eqb (a b : role) : bool :=
  match a, b with
  | anon, anon | authenticated, authenticated => true
  | _, _ => false
  end.

(** [CREATE POLICY ... FOR cmd TO r USING (u) WITH CHECK (c)]. *)
Record policy (Row : Type) := {
  pol_name : string;
  pol_cmd : command;
  pol_to : role;
  pol_using : option (Row -> bool);
  pol_with_check : option (Row -> bool)
}.
Arguments pol_name {Row}.
Arguments pol_cmd {Row}.
Arguments pol_to {Row}.
Arguments pol_using {Row}.
Arguments pol_with_check {Row}.

Definition applies {Row} (c : command) (r : role) (p : policy Row) : bool :=
  command_eqb (pol_cmd p) c && role_eqb (pol_to p) r.

(** The expression checked against an existing row. *)
Definition using_expr {Row} (p : policy Row) (row : Row) : bool :=
  match pol_using p with Some u => u row | None => true end.

(** The expression checked against a new row; an [UPDATE] policy with no
    [WITH CHECK] reuses its [USING] expression. *)
Definition check_expr {Row} (p : policy Row) (row : Row) : bool :=
  match pol_with_check p with
  | Some c => c row
  | None => using_expr p row
  end.

(** Row-level security is enabled on every table below: an operation is
    allowed when some (permissive) policy for the command and the role
    accepts the row, and refused when there is none. *)
Definition rls_old {Row} (ps : list (policy Row)) (c : command) (r : role)
    (row : Row) : bool :=
  existsb (fun p => applies c r p && using_expr p row) ps.

Definition rls_new {Row} (ps : list (policy Row)) (c : command) (r : role)
    (row : Row) : bool :=
  existsb (fun p => applies c r p && check_expr p row) ps.

Definition can_select {Row} ps r (row : Row) : bool := rls_old ps SELECT r row.
Definition can_insert {Row} ps r (row : Row) : bool := rls_new ps INSERT r row.
Definition can_update {Row} ps r (old new : Row) : bool :=
  rls_old ps UPDATE r old && rls_new ps UPDATE r new.
Definition can_delete {Row} ps r (row : Row) : bool := rls_old ps DELETE r row.

(** [get_user_wallet_address() = x] and [... = ANY(arr)]; a null identity
    makes either comparison null, which no policy accepts. *)
Definition ident_is (p : principal) (x : string) : bool :=
  match get_user_wallet_address p with
  | Some i => String.eqb i x
  | None => false
  end.

Definition ident_in (p : principal) (arr : list string) : bool :=
  match get_user_wallet_address p with
  | Some i => any_eq i arr
  | None => false
  end.

Definition conversations_policies (p : principal) : list (policy conversation) :=
  [ {| pol_name := "conversations_select_policy"; pol_cmd := SELECT;
       pol_to := authenticated;
       pol_using := Some (fun c => ident_in p (participants c));
       pol_with_check := None |};
    {| pol_name := "conversations_insert_policy"; pol_cmd := INSERT;
       pol_to := authenticated;
       pol_using := None;
       pol_with_check := Some (fun c => ident_in p (participants c)) |};
    {| pol_name := "conversations_update_policy"; pol_cmd := UPDATE;
       pol_to := authenticated;
       pol_using := Some (fun c => ident_in p (participants c));
       pol_with_check := Some (fun c => ident_in p (participants c)) |} ].

Definition messages_policies (p : principal) : list (policy message) :=
  [ {| pol_name := "messages_select_policy"; pol_cmd := SELECT;
       pol_to := authenticated;
       pol_using := Some (fun m => ident_is p (sender m) || ident_is p (receiver m));
       pol_with_check := None |};
    {| pol_name := "messages_insert_policy"; pol_cmd := INSERT;
       pol_to := authenticated;
       pol_using := None;
       pol_with_check := Some (fun m => ident_is p (sender m)) |};
    {| pol_name := "messages_update_policy"; pol_cmd := UPDATE;
       pol_to := authenticated;
       pol_using := Some (fun m => ident_is p (sender m));
       pol_with_check := Some (fun m => ident_is p (sender m)) |} ].

(** The sub-select shared by the two [attachments] policies:
    [EXISTS (SELECT 1 FROM messages m JOIN conversations c
             ON c.id = m.conversation_id
             WHERE m.id = attachments.message_id
               AND get_user_wallet_address() = ANY(c.participants))].
    It runs as the caller, so it only ranges over the message and
    conversation rows the caller may select. *)
Definition attachment_join (r : role) (p : principal) (d : db)
    (a : attachment) : bool :=
  existsb (fun m =>
    can_select (messages_policies p) r m
    && N.eqb (msg_id m) (message_id a)
    && existsb (fun c =>
         can_select (conversations_policies p) r c
         && match conversation_id m with
            | Some ci => N.eqb (conv_id c) ci
            | None => false
            end
         && ident_in p (participants c))
       (conversations d))
    (messages d).

Definition attachments_policies (r : role) (p : principal) (d : db)
    : list (policy attachment) :=
  [ {| pol_name := "attachments_select_policy"; pol_cmd := SELECT;
       pol_to := authenticated;
       pol_using := Some (attachment_join r p d);
       pol_with_check := None |};
    {| pol_name := "attachments_insert_policy"; pol_cmd := INSERT;
       pol_to := authenticated;
       pol_using := None;
       pol_with_check := Some (attachment_join r p d) |} ].

(** The caller's identity is a participant of the conversation owning the
    message of the attachment [a]. *)
Definition owning_participant (p : principal) (d : db) (a : attachment) : Prop :=
  exists m c,
    In m (messages d) /\ msg_id m = message_id a /\
    In c (conversations d) /\ conversation_id m = Some (conv_id c) /\
    ident_in p (participants c) = true.

Definition in_attachments_bucket (o : storage_object) : bool :=
  String.eqb (bucket_id o) "attachments".

(** The four policies the migration creates on [storage.objects]. *)
Definition attachments_bucket_policies : list (policy storage_object) :=
  [ {| pol_name := "attachments_bucket_select_policy"; pol_cmd := SELECT;
       pol_to := authenticated;
       pol_using := Some in_attachments_bucket; pol_with_check := None |};
    {| pol_name := "attachments_bucket_insert_policy"; pol_cmd := INSERT;
       pol_to := authenticated;
       pol_using := None; pol_with_check := Some in_attachments_bucket |};
    {| pol_name := "attachments_bucket_update_policy"; pol_cmd := UPDATE;
       pol_to := authenticated;
       pol_using := Some in_attachments_bucket; pol_with_check := None |};
    {| pol_name := "attachments_bucket_delete_policy"; pol_cmd := DELETE;
       pol_to := authenticated;
       pol_using := Some in_attachments_bucket; pol_with_check := None |} ].

(** Writing ([INSERT]), updating or deleting an object of the bucket. *)
Inductive bucket_op :=
| Put (o : storage_object)
| Replace (old new : storage_object)
| Remove (o : storage_object).

(** The object rows an operation reads or writes. *)
Definition touched (op : bucket_op) : list storage_object :=
  match op with
  | Put o => [o]
  | Replace old new => [old; new]
  | Remove o => [o]
  end.

Definition bucket_permitted (r : role) (op : bucket_op) : bool :=
  match op with
  | Put o => can_insert attachments_bucket_policies r o
  | Replace old new => can_update attachments_bucket_policies r old new
  | Remove o => can_delete attachments_bucket_policies r o
  end.

End Db.

(* ================================================================= *)
(** ** Conversation materializer: the two message triggers *)

Module Materializer.
Import Sql Auth Db.

(** [SELECT ... LIMIT 1] with no [ORDER BY] returns some matching row, which
    one is up to the executor.  The choice is a parameter [pick]; all that is
    known of it is [limit1]: it returns a row of the result when there is
    one, and nothing only when there is none. *)
Definition chooser := list conversation -> option conversation.

Definition limit1 (pick : chooser) : Prop :=
  forall l, match pick l with Some c => In c l | None => l = [] end.

(** The executor that scans the table in order. *)
Definition first_row : chooser := @hd_error conversation.

(** Column values the database generates for a new conversation row: the
    [id] default and the [updated_at] default. *)
Record generated := { gen_id : uuid; gen_now : timestamptz }.

(** The [WHERE] clause of the trigger's lookup:
    [participants @> ARRAY[NEW.sender] AND participants @> ARRAY[NEW.receiver]
     AND array_length(participants, 1) = 2]. *)
Definition pair_query (nw : message) (c : conversation) : bool :=
  contains1 (participants c) (sender nw)
  && contains1 (participants c) (receiver nw)
  && Nat.eqb (List.length (participants c)) 2.

Definition bind (nw : message) (ci : uuid) : message :=
  {| msg_id := msg_id nw; conversation_id := Some ci;
     sender := sender nw; receiver := receiver nw; content := content nw;
     created_at := created_at nw; status := status nw; error := error nw;
     retries := retries nw; encrypted := encrypted nw |}.

(** [INSERT INTO conversations (participants, last_message,
    last_message_time, is_group) VALUES (ARRAY[NEW.sender, NEW.receiver],
    NEW.content, NEW.created_at, false)]; the other columns take their
    defaults. *)
Definition new_conversation (g : generated) (nw : message) : conversation :=
  {| conv_id := gen_id g;
     participants := [sender nw; receiver nw];
     last_message := content nw;
     last_message_time := created_at nw;
     updated_at := gen_now g;
     is_group := false;
     group_name := "";
     group_avatar := "" |}.

(** The [BEFORE INSERT] trigger: the conversations table afterwards and the
    row that goes on to be inserted. *)
Definition update_conversation_on_message (pick : chooser) (g : generated)
    (cs : list conversation) (nw : message) : list conversation * message :=
  match conversation_id nw with
  | Some _ => (cs, nw)
  | None =>
      match option_map conv_id (pick (filter (pair_query nw) cs)) with
      | Some ci => (cs, bind nw ci)
      | None => ((cs ++ [new_conversation g nw])%list, bind nw (gen_id g))
      end
  end.

Definition rollup (nw : message) (c : conversation) : conversation :=
  {| conv_id := conv_id c;
     participants := participants c;
     last_message := content nw;
     last_message_time := created_at nw;
     updated_at := created_at nw;
     is_group := is_group c;
     group_name := group_name c;
     group_avatar := group_avatar c |}.

Definition bound_to (nw : message) (c : conversation) : bool :=
  match conversation_id nw with
  | Some ci => N.eqb (conv_id c) ci
  | None => false
  end.

(** The [AFTER INSERT] trigger:
    [UPDATE conversations SET ... WHERE id = NEW.conversation_id]. *)
Definition update_conversation_last_message (cs : list conversation)
    (nw : message) : list conversation :=
  map (fun c => if bound_to nw c then rollup nw c else c) cs.

(** [INSERT INTO messages] by a caller: the before-trigger, the insert
    policy on the row it returns, the insert, the after-trigger.  A refused
    row aborts the statement, and nothing changes.  The result carries the
    row as stored. *)
Definition insert_message (pick : chooser) (g : generated) (r : role)
    (p : principal) (d : db) (row : message) : option (db * message) :=
  let '(cs, nw) := update_conversation_on_message pick g (conversations d) row in
  if can_insert (messages_policies p) r nw then
    Some ({| conversations := update_conversation_last_message cs nw;
             messages := (messages d ++ [nw])%list;
             attachments := attachments d;
             objects := objects d |}, nw)
  else None.

(** [INSERT INTO conversations] by a caller, under the insert policy. *)
Definition insert_conversation (r : role) (p : principal) (d : db)
    (row : conversation) : option db :=
  if can_insert (conversations_policies p) r row then
    Some (set_conversations d (conversations d ++ [row])%list)
  else None.

(** Statements a session can issue, and their effect on the database. *)
Inductive statement :=
| InsertMessage (pick : chooser) (g : generated) (r : role) (p : principal)
    (row : message)
| InsertConversation (r : role) (p : principal) (row : conversation).

Definition exec (d : db) (s : statement) : db :=
  match s with
  | InsertMessage pick g r p row =>
      match insert_message pick g r p d row with
      | Some (d', _) => d'
      | None => d
      end
  | InsertConversation r p row =>
      match insert_conversation r p d row with
      | Some d' => d'
      | None => d
      end
  end.

Definition run (d : db) (ss : list statement) : db := fold_left exec ss d.

Definition fair (s : statement) : Prop :=
  match s with
  | InsertMessage pick _ _ _ _ => limit1 pick
  | InsertConversation _ _ _ => True
  end.

Definition is_message_insert (s : statement) : Prop :=
  match s with
  | InsertMessage _ _ _ _ _ => True
  | InsertConversation _ _ _ => False
  end.

(** States reachable from the empty database. *)
Definition reachable (d : db) : Prop :=
  exists ss, Forall fair ss /\ run empty_db ss = d.

(** [c] is a non-group conversation of the unordered pair [{a, b}]. *)
Definition pair_conversation (a b : string) (c : conversation) : bool :=
  negb (is_group c)
  && match participants c with
     | [x; y] =>
         (String.eqb x a && String.eqb y b) || (String.eqb x b && String.eqb y a)
     | _ => false
     end.

(** At most one non-group conversation row per unordered pair. *)
Definition pair_unique (cs : list conversation) : Prop :=
  forall a b, List.length (filter (pair_conversation a b) cs) <= 1.

End Materializer.

(* ================================================================= *)
(** ** JavaScript built-ins used by the Messages page *)

Module Js.

(** [Array.prototype.sort(cmp)]: a stable sort; [cmp a b <= 0] keeps [a]
    before [b].  Stable insertion sort is the reference implementation: for
    a comparator that is a total preorder a stable sort has one result. *)
Section Sort.
Context {A : Type} (cmp : A -> A -> Z).

Fixpoint insert (x : A) (l : list A) : list A :=
  match l with
  | [] => [x]
  | y :: l' => if (cmp x y <=? 0)%Z then x :: y :: l' else y :: insert x l'
  end.

Fixpoint sort (l : list A) : list A :=
  match l with
  | [] => []
  | x :: l' => insert x (sort l')
  end.

End Sort.

(** The default comparator of [sort()] on strings: code-unit order. *)
Definition default_compare (a b : string) : Z :=
  match String.compare a b with
  | Lt => (-1)%Z
  | Eq => 0%Z
  | Gt => 1%Z
  end.

(** [String.prototype.toLowerCase] on the ASCII range. *)
Definition lower_ascii (c : ascii) : ascii :=
  let n := nat_of_ascii c in
  if (65 <=? n)%nat && (n <=? 90)%nat then ascii_of_nat (n + 32) else c.

Fixpoint toLowerCase (s : string) : string :=
  match s with
  | EmptyString => EmptyString
  | String c s' => String (lower_ascii c) (toLowerCase s')
  end.

(** A string stands for the UTF-8 bytes of the JavaScript string.  The
    white space that [trim] strips is the [WhiteSpace] and [LineTerminator]
    of the language: U+0009 to U+000D and U+0020 in one byte, U+00A0 in two,
    and U+1680, U+2000 to U+200A, U+2028, U+2029, U+202F, U+205F, U+3000 and
    U+FEFF in three. *)
Definition is_space (c : ascii) : bool :=
  let n := nat_of_ascii c in
  ((9 <=? n)%nat && (n <=? 13)%nat) || (n =? 32)%nat.

Definition is_space2 (a b : ascii) : bool :=
  (nat_of_ascii a =? 194)%nat && (nat_of_ascii b =? 160)%nat.

Definition is_space3 (a b c : ascii) : bool :=
  let x := nat_of_ascii a in
  let y := nat_of_ascii b in
  let z := nat_of_ascii c in
  ((x =? 225) && (y =? 154) && (z =? 128))%nat
  || ((x =? 226) && (y =? 128)
      && (((128 <=? z) && (z <=? 138)) || (z =? 168) || (z =? 169)
          || (z =? 175)))%nat
  || ((x =? 226) && (y =? 129) && (z =? 159))%nat
  || ((x =? 227) && (y =? 128) && (z =? 128))%nat
  || ((x =? 239) && (y =? 187) && (z =? 191))%nat.

(** [s] is made of white space only. *)
Fixpoint blank (s : string) : bool :=
  match s with
  | EmptyString => true
  | String a s1 =>
      if is_space a then blank s1
      else
        match s1 with
        | EmptyString => false
        | String b s2 =>
            if is_space2 a b then blank s2
            else
              match s2 with
              | EmptyString => false
              | String c s3 => if is_space3 a b c then blank s3 else false
              end
        end
  end.

Fixpoint trim_start (s : string) : string :=
  match s with
  | EmptyString => EmptyString
  | String a s1 =>
      if is_space a then trim_start s1
      else
        match s1 with
        | EmptyString => s
        | String b s2 =>
            if is_space2 a b then trim_start s2
            else
              match s2 with
              | EmptyString => s
              | String c s3 => if is_space3 a b c then trim_start s3 else s
              end
        end
  end.

(** The text ends where only white space follows. *)
Fixpoint trim_end (s : string) : string :=
  match s with
  | EmptyString => EmptyString
  | String a s1 => if blank s then EmptyString else String a (trim_end s1)
  end.

(** [String.prototype.trim] *)
Definition trim (s : string) : string := trim_end (trim_start s).

(** A time value [t] makes a valid [Date] when it is within 8.64e15
    milliseconds of the epoch. *)
Definition valid_time (t : Z) : bool :=
  ((-8640000000000000 <=? t) && (t <=? 8640000000000000))%Z.

(** How a piece of code ends: normally, with a value, or by throwing the
    [RangeError] that [toISOString] raises on an invalid [Date]. *)
Inductive Completion (A : Type) : Type :=
| Normal (a : A)
| RangeError.
Arguments Normal {A} a.
Arguments RangeError {A}.

Definition and_then {A B} (c : Completion A) (k : A -> Completion B)
    : Completion B :=
  match c with
  | Normal a => k a
  | RangeError => RangeError
  end.

(** [new Date(t).toISOString()].  The string is represented by the time
    value it denotes, which [new Date(iso).getTime()] gives back. *)
Definition toISOString (t : Z) : Completion Z :=
  if valid_time t then Normal t else RangeError.

(** Truthiness of a string: every string but the empty one. *)
Definition truthy (s : string) : bool :=
  match s with EmptyString => false | String _ _ => true end.

(** [a || b] where [a] may be [undefined]. *)
Definition or_else (a : option string) (b : string) : string :=
  match a with
  | Some s => if truthy s then s else b
  | None => b
  end.

End Js.

(* ================================================================= *)
(** ** Client reconciliation engine (the Messages page) *)

Module Client.
Import Js.

Inductive Status := sending | sent | delivered | pending_decryption | failed.

(** Modelled from the spec: the [Message] type is declared in
    [lib/messagingService], which is not among the sources; the fields are
    those of the spec's data model, all of which [handleSend] fills in.
    Timestamps are ECMAScript time values (milliseconds, as [Date.now()]
    gives them). *)
Record Message := {
  id : string;
  sender : string;
  receiver : string;
  content : string;
  timestamp : Z;
  status : Status;
  transport : string;
  encrypted : bool
}.

(** [last_message_time] is kept as the time value [t] that the ISO string
    [new Date(t).toISOString()] denotes: on time values
    [new Date(iso).getTime()] gives [t] back. *)
Record Conversation := {
  conv_id : string;
  participants : list string;
  last_message : string;
  last_message_time : Z;
  is_group : bool
}.

Definition set_status (s : Status) (m : Message) : Message :=
  {| id := id m; sender := sender m; receiver := receiver m;
     content := content m; timestamp := timestamp m; status := s;
     transport := transport m; encrypted := encrypted m |}.

(** [(a, b) => a.timestamp - b.timestamp] *)
Definition by_timestamp (a b : Message) : Z := (timestamp a - timestamp b)%Z.

(** [(a, b) => new Date(b.last_message_time).getTime()
               - new Date(a.last_message_time).getTime()] *)
Definition by_recency (a b : Conversation) : Z :=
  (last_message_time b - last_message_time a)%Z.

(** *** generateConversationsFromMessages *)

(** The [Map<string, Conversation>]: keys in insertion order. *)
Definition ConversationMap := list (string * Conversation).

Fixpoint map_get (k : string) (m : ConversationMap) : option Conversation :=
  match m with
  | [] => None
  | (k', v) :: m' => if String.eqb k k' then Some v else map_get k m'
  end.

(** Replace the value stored under [k]: the in-place mutation of the object
    that [conversationMap.get] returned. *)
Fixpoint map_mutate (k : string) (v : Conversation) (m : ConversationMap)
    : ConversationMap :=
  match m with
  | [] => []
  | (k', v') :: m' =>
      if String.eqb k k' then (k', v) :: m' else (k', v') :: map_mutate k v m'
  end.

Definition map_values (m : ConversationMap) : list Conversation := map snd m.

Definition message_participants (m : Message) : list string :=
  sort default_compare [sender m; receiver m].

Definition conversationId (m : Message) : string :=
  String.concat "-" (message_participants m).

(** The body of [messageList.forEach].  A first message of a key and a
    message newer than the summary of its key have their timestamp turned
    into an ISO string, which throws for an invalid date. *)
Definition visit (cm : ConversationMap) (message : Message)
    : Completion ConversationMap :=
  let k := conversationId message in
  match map_get k cm with
  | None =>
      and_then (toISOString (timestamp message)) (fun iso =>
        Normal
          (cm ++ [(k, {| conv_id := k;
                         participants := message_participants message;
                         last_message := content message;
                         last_message_time := iso;
                         is_group := false |})])%list)
  | Some conversation =>
      if (timestamp message >? last_message_time conversation)%Z then
        and_then (toISOString (timestamp message)) (fun iso =>
          Normal
            (map_mutate k
               {| conv_id := conv_id conversation;
                  participants := participants conversation;
                  last_message := content message;
                  last_message_time := iso;
                  is_group := is_group conversation |} cm))
      else Normal cm
  end.

(** What [visit] leaves behind when it does not throw. *)
Definition visited (cm : ConversationMap) (message : Message)
    : ConversationMap :=
  let k := conversationId message in
  match map_get k cm with
  | None =>
      (cm ++ [(k, {| conv_id := k;
                     participants := message_participants message;
                     last_message := content message;
                     last_message_time := timestamp message;
                     is_group := false |})])%list
  | Some conversation =>
      if (timestamp message >? last_message_time conversation)%Z then
        map_mutate k
          {| conv_id := conv_id conversation;
             participants := participants conversation;
             last_message := content message;
             last_message_time := timestamp message;
             is_group := is_group conversation |} cm
      else cm
  end.

(** The map after a [forEach] that did not throw. *)
Definition built (messageList : list Message) : ConversationMap :=
  fold_left visited messageList [].

Definition build_map (messageList : list Message)
    : Completion ConversationMap :=
  fold_left (fun acc message => and_then acc (fun cm => visit cm message))
            messageList (Normal []).

(** The list handed to [setConversations]; [Normal None] is the early
    return when there is no wallet address. *)
Definition generateConversationsFromMessages (walletAddress : option string)
    (messageList : list Message) : Completion (option (list Conversation)) :=
  match walletAddress with
  | None => Normal None
  | Some w =>
      if truthy w then
        and_then (build_map messageList) (fun cm =>
          Normal
            (Some (sort by_recency
                     (filter (fun conv =>
                                existsb (String.eqb (toLowerCase w))
                                        (participants conv))
                             (map_values cm)))))
      else Normal None
  end.

(** *** Component state and its updaters *)

Record State := {
  messages : list Message;
  conversations : list Conversation;
  newMessage : string;
  recipient : string;
  showRecipient : bool;
  selectedConversation : option Conversation;
  encryptionEnabled : bool;
  loading : bool
}.

(** The values of the [useState] calls. *)
Definition initial : State :=
  {| messages := []; conversations := []; newMessage := ""; recipient := "";
     showRecipient := true; selectedConversation := None;
     encryptionEnabled := true; loading := false |}.

Definition setMessages (f : list Message -> list Message) (st : State) : State :=
  {| messages := f (messages st); conversations := conversations st;
     newMessage := newMessage st; recipient := recipient st;
     showRecipient := showRecipient st;
     selectedConversation := selectedConversation st;
     encryptionEnabled := encryptionEnabled st; loading := loading st |}.

Definition setConversations (cs : list Conversation) (st : State) : State :=
  {| messages := messages st; conversations := cs;
     newMessage := newMessage st; recipient := recipient st;
     showRecipient := showRecipient st;
     selectedConversation := selectedConversation st;
     encryptionEnabled := encryptionEnabled st; loading := loading st |}.

Definition setNewMessage (s : string) (st : State) : State :=
  {| messages := messages st; conversations := conversations st;
     newMessage := s; recipient := recipient st;
     showRecipient := showRecipient st;
     selectedConversation := selectedConversation st;
     encryptionEnabled := encryptionEnabled st; loading := loading st |}.

Definition setRecipient (s : string) (st : State) : State :=
  {| messages := messages st; conversations := conversations st;
     newMessage := newMessage st; recipient := s;
     showRecipient := showRecipient st;
     selectedConversation := selectedConversation st;
     encryptionEnabled := encryptionEnabled st; loading := loading st |}.

Definition setShowRecipient (b : bool) (st : State) : State :=
  {| messages := messages st; conversations := conversations st;
     newMessage := newMessage st; recipient := recipient st;
     showRecipient := b;
     selectedConversation := selectedConversation st;
     encryptionEnabled := encryptionEnabled st; loading := loading st |}.

Definition setSelectedConversation (c : option Conversation) (st : State) : State :=
  {| messages := messages st; conversations := conversations st;
     newMessage := newMessage st; recipient := recipient st;
     showRecipient := showRecipient st;
     selectedConversation := c;
     encryptionEnabled := encryptionEnabled st; loading := loading st |}.

Definition setEncryptionEnabled (b : bool) (st : State) : State :=
  {| messages := messages st; conversations := conversations st;
     newMessage := newMessage st; recipient := recipient st;
     showRecipient := showRecipient st;
     selectedConversation := selectedConversation st;
     encryptionEnabled := b; loading := loading st |}.

Definition setLoading (b : bool) (st : State) : State :=
  {| messages := messages st; conversations := conversations st;
     newMessage := newMessage st; recipient := recipient st;
     showRecipient := showRecipient st;
     selectedConversation := selectedConversation st;
     encryptionEnabled := encryptionEnabled st; loading := b |}.

Definition has_wallet (walletAddress : option string) : bool :=
  match walletAddress with Some w => truthy w | None => false end.

(** A call of [generateConversationsFromMessages] for its effect. *)
Definition derive (walletAddress : option string) (l : list Message)
    (st : State) : Completion State :=
  and_then (generateConversationsFromMessages walletAddress l) (fun r =>
    Normal match r with
           | Some cs => setConversations cs st
           | None => st
           end).

(** [initializeMessaging], from the moment [loadMessagesFromLocal] has
    answered with [existingMessages].  The call of
    [generateConversationsFromMessages] stands in the [try] block: when it
    throws, the [catch] block logs the error, the messages stay as set and
    the listeners are not registered. *)
Definition on_loaded (walletAddress : option string)
    (existingMessages : list Message) (st : State) : State :=
  if has_wallet walletAddress then
    let st' := setMessages (fun _ => existingMessages) st in
    match derive walletAddress existingMessages st' with
    | Normal st'' => st''
    | RangeError => st'
    end
  else st.

Definition has_id (i : string) (l : list Message) : bool :=
  existsb (fun m => String.eqb (id m) i) l.

(** The updater that the [onMessage] listener passes to [setMessages]. *)
Definition merge (prev : list Message) (message : Message) : list Message :=
  if has_id (id message) prev then prev
  else sort by_timestamp (prev ++ [message])%list.

(** The [onMessage] listener.  The updater derives the conversations
    before it returns the new list: when that throws, no list is returned
    and the update does not take place. *)
Definition on_message (walletAddress : option string) (message : Message)
    (st : State) : Completion State :=
  if has_id (id message) (messages st) then Normal st
  else
    let newMessages := merge (messages st) message in
    derive walletAddress newMessages (setMessages (fun _ => newMessages) st).

(** [handleSend]: the recipient of the message. *)
Definition targetRecipient (walletAddress : string) (st : State) : string :=
  match selectedConversation st with
  | Some conv =>
      or_else
        (find (fun p => negb (String.eqb p (toLowerCase walletAddress)))
              (participants conv))
        (recipient st)
  | None => recipient st
  end.

(** What a running [handleSend] remembers across its [await]. *)
Record Pending := { localMessage : Message; shownRecipient : bool }.

(** [handleSend] up to the [await]: [uuid] is what [crypto.randomUUID()]
    returned and [now] what [Date.now()] returned.  [None]: one of the two
    early returns was taken.  The updater of the optimistic append derives
    the conversations like the one of the listener, and throws with it. *)
Definition handleSend_submit (walletAddress : option string) (uuid : string)
    (now : Z) (st : State) : Completion (State * option Pending) :=
  match walletAddress with
  | None => Normal (st, None)
  | Some w =>
      if negb (truthy (trim (newMessage st))) || negb (truthy w)
      then Normal (st, None)
      else
        let target := targetRecipient w st in
        if negb (truthy (trim target)) then Normal (st, None)
        else
          let localMessage :=
            {| id := uuid;
               sender := toLowerCase w;
               receiver := toLowerCase target;
               content := trim (newMessage st);
               timestamp := now;
               status := sending;
               transport := "gun";
               encrypted := encryptionEnabled st |} in
          let newMessages :=
            sort by_timestamp (messages st ++ [localMessage])%list in
          and_then
            (derive walletAddress newMessages
               (setMessages (fun _ => newMessages) (setLoading true st)))
            (fun st' =>
               Normal (st', Some {| localMessage := localMessage;
                                    shownRecipient := showRecipient st |}))
  end.

(** [handleSend] after [sendMessage] resolved. *)
Definition handleSend_resolved (p : Pending) (st : State) : State :=
  let st1 :=
    setMessages
      (map (fun msg =>
              if String.eqb (id msg) (id (localMessage p))
              then set_status sent msg else msg)) st in
  let st2 := setNewMessage "" st1 in
  let st3 := if shownRecipient p then setShowRecipient false st2 else st2 in
  setLoading false st3.

(** [prev[prev.length - 1]], [undefined] on the empty array. *)
Fixpoint last_of (prev : list Message) : option Message :=
  match prev with
  | [] => None
  | [m] => Some m
  | _ :: prev' => last_of prev'
  end.

(** The updater of the [catch] block:
    [prev.map(msg => msg.id === prev[prev.length - 1]?.id ? failed : msg)]. *)
Definition mark_failed (prev : list Message) : list Message :=
  map (fun msg =>
         match option_map id (last_of prev) with
         | Some i => if String.eqb (id msg) i then set_status failed msg else msg
         | None => msg
         end) prev.

(** [handleSend] after [sendMessage] was rejected. *)
Definition handleSend_rejected (st : State) : State :=
  setLoading false (setMessages mark_failed st).

(** What can happen to the component.  The local store and the transport
    are not among the sources: what [loadMessagesFromLocal] returns, what
    [onMessage] delivers and whether [sendMessage] resolves or rejects are
    inputs. *)
Inductive Event :=
| Loaded (existingMessages : list Message)
| Received (message : Message)
| Submitted (uuid : string) (now : Z)
| Resolved (p : Pending)
| Rejected
| Typed (s : string)
| RecipientTyped (s : string)
| EncryptionToggled.

Definition step (walletAddress : option string) (st : State) (e : Event)
    : Completion State :=
  match e with
  | Loaded l => Normal (on_loaded walletAddress l st)
  | Received m => on_message walletAddress m st
  | Submitted uuid now =>
      and_then (handleSend_submit walletAddress uuid now st)
               (fun r => Normal (fst r))
  | Resolved p => Normal (handleSend_resolved p st)
  | Rejected => Normal (handleSend_rejected st)
  | Typed s => Normal (setNewMessage s st)
  | RecipientTyped s => Normal (setRecipient s st)
  | EncryptionToggled =>
      Normal (setEncryptionEnabled (negb (encryptionEnabled st)) st)
  end.

(** A sequence of events; a throw ends it. *)
Fixpoint run (walletAddress : option string) (st : State)
    (es : list Event) : Completion State :=
  match es with
  | [] => Normal st
  | e :: es' =>
      and_then (step walletAddress st e)
               (fun st' => run walletAddress st' es')
  end.

(** Non-decreasing by timestamp. *)
Definition nondecreasing (l : list Message) : Prop :=
  StronglySorted (fun a b => (timestamp a <= timestamp b)%Z) l.

(** Every load from the local store delivered a list in timestamp order. *)
Definition ordered_load (e : Event) : Prop :=
  match e with
  | Loaded l => nondecreasing l
  | _ => True
  end.


(** Every timestamp of the list makes a valid date. *)
Definition valid_times (l : list Message) : Prop :=
  Forall (fun m => valid_time (timestamp m) = true) l.




End Client.

(* ================================================================= *)
(** ** Concrete data used by the examples *)

Module Scenario.
Import Sql Auth Db Materializer.

Definition alice : principal := {| uid := 1%N; email := Some "0xaa@kraken.web3" |}.
Definition bob : principal := {| uid := 2%N; email := Some "0xbb@kraken.web3" |}.
Definition carol : principal := {| uid := 3%N; email := Some "0xcc@kraken.web3" |}.

Definition msg (i : uuid) (ci : option uuid) (s r c : string) (t : timestamptz)
    : message :=
  {| msg_id := i; conversation_id := ci; sender := s; receiver := r;
     content := c; created_at := t; status := "sent"; error := "";
     retries := 0%Z; encrypted := false |}.

Definition conv (i : uuid) (ps : list string) : conversation :=
  {| conv_id := i; participants := ps; last_message := "";
     last_message_time := 0%Z; updated_at := 0%Z; is_group := false;
     group_name := ""; group_avatar := "" |}.

(** Alice and Bob have a conversation with one message and one attachment;
    Carol takes no part in it. *)
Definition shared_db : db :=
  {| conversations := [conv 100%N ["0xaa"; "0xbb"]];
     messages := [msg 200%N (Some 100%N) "0xaa" "0xbb" "see attached" 5%Z];
     attachments := [{| message_id := 200%N |}];
     objects := [] |}.

Definition photo : storage_object :=
  {| bucket_id := "attachments"; name := "200/photo.png" |}.

Definition photo' : storage_object :=
  {| bucket_id := "attachments"; name := "200/other.png" |}.

Definition photo_row : attachment := {| message_id := 200%N |}.

Definition gen1 : generated := {| gen_id := 101%N; gen_now := 1000%Z |}.
Definition gen2 : generated := {| gen_id := 102%N; gen_now := 2000%Z |}.
Definition gen3 : generated := {| gen_id := 103%N; gen_now := 3000%Z |}.

(** Alice writes to Bob, then Bob to Alice with an earlier time. *)
Definition a_to_b : message := msg 201%N None "0xaa" "0xbb" "hi" 20%Z.
Definition b_to_a : message := msg 202%N None "0xbb" "0xaa" "hello" 10%Z.

Definition exchange : list statement :=
  [ InsertMessage first_row gen1 authenticated alice a_to_b;
    InsertMessage first_row gen2 authenticated bob b_to_a ].

Definition after_a_to_b : db :=
  run empty_db [InsertMessage first_row gen1 authenticated alice a_to_b].

(** Alice inserts two conversation rows for the same pair herself. *)
Definition twice : list statement :=
  [ InsertConversation authenticated alice (conv 100%N ["0xaa"; "0xbb"]);
    InsertConversation authenticated alice (conv 101%N ["0xaa"; "0xbb"]) ].

(** Alice writes a note to herself, then to Bob, then a second note. *)
Definition note1 : message := msg 201%N None "0xaa" "0xaa" "note" 10%Z.
Definition note2 : message := msg 203%N None "0xaa" "0xaa" "second note" 30%Z.

Definition note_then_chat : list statement :=
  [ InsertMessage first_row gen1 authenticated alice note1;
    InsertMessage first_row gen2 authenticated alice
      (msg 202%N None "0xaa" "0xbb" "hi" 20%Z) ].

End Scenario.

Module ClientScenario.
Import Js Client.

Definition me : option string := Some "0xAA".

Definition peer_message (i : string) (t : Z) (c : string) : Message :=
  {| id := i; sender := "0xbb"; receiver := "0xaa"; content := c;
     timestamp := t; status := delivered; transport := "gun";
     encrypted := true |}.

(** The local store hands back two messages, the newer one first. *)
Definition unordered_load : list Event :=
  [ Loaded [peer_message "m2" 2000 "second"; peer_message "m1" 1000 "first"] ].

(** The user types "hello" for 0xBB with encryption switched off and sends
    at time 1000; a message of the peer dated 1500 arrives while the send is
    under way; the send is then rejected. *)
Definition failed_send : list Event :=
  [ Typed "hello"; RecipientTyped "0xBB"; EncryptionToggled;
    Submitted "u1" 1000; Received (peer_message "m9" 1500 "ping"); Rejected ].

(** The same send with nothing arriving in between. *)
Definition failed_send_alone : list Event :=
  [ Typed "hello"; RecipientTyped "0xBB"; EncryptionToggled;
    Submitted "u1" 1000; Rejected ].

(** The same send when the list already holds a message dated later than
    the local clock. *)
Definition failed_send_skew : list Event :=
  [ Received (peer_message "m9" 1500 "ping");
    Typed "hello"; RecipientTyped "0xBB"; EncryptionToggled;
    Submitted "u1" 1000; Rejected ].

(** A session whose load is in timestamp order, followed by an older
    message of the peer and a repeated delivery. *)
Definition ordered_session : list Event :=
  [ Loaded [peer_message "m1" 1000 "first"; peer_message "m2" 2000 "second"];
    Received (peer_message "m0" 500 "earlier");
    Received (peer_message "m2" 2000 "second") ].





(** Three messages of one pair, two of them at the greatest time. *)
Definition tie : list Message :=
  [ peer_message "m1" 1000 "old"; peer_message "m2" 2000 "first at 2000";
    peer_message "m3" 2000 "second at 2000" ].

End ClientScenario.

(* ================================================================= *)
(** ** The profiles table and its policies *)

Module Profiles.
Import Sql Auth Db.

(** Modelled from the spec: the [profiles] table is created by an earlier
    migration that is not among the sources; the columns are those of the
    spec's schema, which this migration alters. *)
Record profile := {
  address : string;
  username : string;
  bio : string;
  avatar_url : string
}.

Definition profiles_policies (p : principal) : list (policy profile) :=
  [ {| pol_name := "profiles_select_policy"; pol_cmd := SELECT;
       pol_to := authenticated;
       pol_using := Some (fun _ => true);
       pol_with_check := None |};
    {| pol_name := "profiles_insert_policy"; pol_cmd := INSERT;
       pol_to := authenticated;
       pol_using := None;
       pol_with_check := Some (fun pr => ident_is p (address pr)) |};
    {| pol_name := "profiles_update_policy"; pol_cmd := UPDATE;
       pol_to := authenticated;
       pol_using := Some (fun pr => ident_is p (address pr));
       pol_with_check := Some (fun pr => ident_is p (address pr)) |} ].

End Profiles.

(* ================================================================= *)
(** ** Properties of database states used by the facts on the triggers *)

Module Integrity.
Import Sql Auth Db Materializer.

(** A message insert that leaves the conversation to the trigger. *)
Definition unbound_insert (s : statement) : Prop :=
  match s with
  | InsertMessage pick _ _ _ row => limit1 pick /\ conversation_id row = None
  | InsertConversation _ _ _ => True
  end.

(** Every stored message is bound to a conversation row of the table that
    has its sender and its receiver among the participants. *)
Definition well_bound (d : db) : Prop :=
  forall m, In m (messages d) ->
    exists c, In c (conversations d) /\
              conversation_id m = Some (conv_id c) /\
              In (sender m) (participants c) /\
              In (receiver m) (participants c).

(** [c'] is the row [c] up to its rollup columns; it is [c] itself unless
    the row is the one the message [nw] is bound to. *)
Definition same_thread (nw : message) (c c' : conversation) : Prop :=
  conv_id c' = conv_id c /\ participants c' = participants c /\
  is_group c' = is_group c /\ group_name c' = group_name c /\
  group_avatar c' = group_avatar c /\
  (conversation_id nw <> Some (conv_id c) -> c' = c).

End Integrity.

(* ================================================================= *)
(** ** The Messages page: what is shown *)

Module View.
Import Js Client.

Fixpoint take (n : nat) (s : string) : string :=
  match n, s with
  | S n', String c s' => String c (take n' s')
  | _, _ => EmptyString
  end.

Fixpoint drop (n : nat) (s : string) : string :=
  match n, s with
  | S n', String _ s' => drop n' s'
  | _, _ => s
  end.

(** [s.slice(start, stop)]: a negative index counts from the end, indices
    are clamped to the string, and an empty range gives the empty string. *)
Definition slice (s : string) (start : Z) (stop : option Z) : string :=
  let len := Z.of_nat (String.length s) in
  let clamp k := if (k <? 0)%Z then Z.max (len + k) 0 else Z.min k len in
  let from := clamp start in
  let to := match stop with Some e => clamp e | None => len end in
  take (Z.to_nat (to - from)) (drop (Z.to_nat from) s).

(** [`${address.slice(0, 6)}...${address.slice(-4)}`] *)
Definition shortenAddress (address : string) : string :=
  slice address 0 (Some 6%Z) ++ "..." ++ slice address (-4) None.

Definition includes (l : list string) (x : string) : bool :=
  existsb (String.eqb x) l.

(** [getConversationMessages]; it is defined past the early return for a
    missing wallet address, so the address is there. *)
Definition getConversationMessages (walletAddress : string) (st : State)
    : list Message :=
  match selectedConversation st with
  | None =>
      if negb (truthy (recipient st)) then []
      else
        filter (fun m =>
          (String.eqb (toLowerCase (sender m)) (toLowerCase (recipient st))
           && String.eqb (toLowerCase (receiver m)) (toLowerCase walletAddress))
          || (String.eqb (toLowerCase (sender m)) (toLowerCase walletAddress)
              && String.eqb (toLowerCase (receiver m))
                            (toLowerCase (recipient st))))
          (messages st)
  | Some conv =>
      filter (fun m => includes (participants conv) (sender m)
                       && includes (participants conv) (receiver m))
             (messages st)
  end.

(** [p => p !== walletAddress?.toLowerCase()] *)
Definition is_other (walletAddress : option string) (p : string) : bool :=
  match walletAddress with
  | Some w => negb (String.eqb p (toLowerCase w))
  | None => true
  end.

Definition handleConversationSelect (walletAddress : option string)
    (conversation : Conversation) (st : State) : State :=
  let st' :=
    setShowRecipient false (setSelectedConversation (Some conversation) st) in
  match find (is_other walletAddress) (participants conversation) with
  | Some otherParticipant =>
      if truthy otherParticipant then setRecipient otherParticipant st' else st'
  | None => st'
  end.

Definition handleNewMessage (st : State) : State :=
  setShowRecipient true (setRecipient "" (setSelectedConversation None st)).

(** Guards on a sequence of events: a load delivers no id twice, and
    [crypto.randomUUID()] returns an id that is not in the list. *)
Definition admissible (st : State) (e : Event) : Prop :=
  match e with
  | Loaded l => NoDup (map id l)
  | Submitted uuid _ => has_id uuid (messages st) = false
  | _ => True
  end.

Fixpoint admissible_run (w : option string) (st : State) (es : list Event)
    : Prop :=
  match es with
  | [] => True
  | e :: es' =>
      admissible st e /\
      match step w st e with
      | Normal st' => admissible_run w st' es'
      | RangeError => True
      end
  end.

(** Newest first. *)
Definition newest_first (l : list Conversation) : Prop :=
  StronglySorted
    (fun a b => (last_message_time b <= last_message_time a)%Z) l.

End View.

(* ================================================================= *)
(** ** The application shell: authentication state (App.tsx) *)

Module App.
Import Js.

(** The three [localStorage] items the shell reads. *)
Record Storage := {
  stored_walletAddress : option string;
  stored_isAuthenticated : option string;
  stored_userType : option string
}.

(** [localStorage.clear()] *)
Definition cleared : Storage :=
  {| stored_walletAddress := None; stored_isAuthenticated := None;
     stored_userType := None |}.

Record AuthState := {
  isAuthenticated : bool;
  walletAddress : option string;
  userType : option string;
  loading : bool
}.

(** [restoring] holds the address and user type that a [checkAuth]
    waiting for [signInWithPassword] has read from the storage. *)
Record World := {
  auth : AuthState;
  storage : Storage;
  restoring : option (option string * option string)
}.

(** The values of the [useState] calls, over some storage. *)
Definition start (s : Storage) : World :=
  {| auth := {| isAuthenticated := false; walletAddress := None;
                userType := None; loading := true |};
     storage := s; restoring := None |}.

(** Truthiness of what [getItem] returns. *)
Definition present (o : option string) : bool :=
  match o with Some s => truthy s | None => false end.

Definition is_string (o : option string) (v : string) : bool :=
  match o with Some s => String.eqb s v | None => false end.

(** [setIsAuthenticated(true); setWalletAddress(a); setUserType(t)] *)
Definition signed_in (a t : option string) (w : World) : World :=
  {| auth := {| isAuthenticated := true; walletAddress := a; userType := t;
                loading := loading (auth w) |};
     storage := storage w; restoring := restoring w |}.

(** [localStorage.clear(); setIsAuthenticated(false);
     setWalletAddress(null); setUserType(null)] *)
Definition signed_out (w : World) : World :=
  {| auth := {| isAuthenticated := false; walletAddress := None;
                userType := None; loading := loading (auth w) |};
     storage := cleared; restoring := restoring w |}.

Definition setLoading (b : bool) (w : World) : World :=
  {| auth := {| isAuthenticated := isAuthenticated (auth w);
                walletAddress := walletAddress (auth w);
                userType := userType (auth w); loading := b |};
     storage := storage w; restoring := restoring w |}.

Definition set_restoring (r : option (option string * option string))
    (w : World) : World :=
  {| auth := auth w; storage := storage w; restoring := r |}.

(** How an awaited call of the auth client ends: it throws, or it answers;
    [ok] says whether the answer carries a session. *)
Inductive Answer := Threw | Answered (ok : bool).

Definition synthetic_email (storedAddress : string) : string :=
  storedAddress ++ "@kraken.web3".

Definition synthetic_password (storedAddress : string) : string :=
  "kraken_" ++ storedAddress ++ "_secure_2025".

(** Whether [checkAuth] reaches [signInWithPassword]. *)
Definition restores (getSession : Answer) (s : Storage) : bool :=
  match getSession with
  | Threw => false
  | Answered session =>
      negb (session && is_string (stored_isAuthenticated s) "true"
            && present (stored_walletAddress s) && present (stored_userType s))
      && is_string (stored_isAuthenticated s) "true"
      && present (stored_walletAddress s) && present (stored_userType s)
      && negb (is_string (stored_userType s) "email")
  end.

(** The credentials of the sign-in that [checkAuth] attempts, if it does. *)
Definition credentials (getSession : Answer) (s : Storage)
    : option (string * string) :=
  if restores getSession s then
    match stored_walletAddress s with
    | Some a => Some (synthetic_email a, synthetic_password a)
    | None => None
    end
  else None.

(** [checkAuth], from the moment [supabase.auth.getSession()] has ended
    (in [getSession]) up to the end of the function or, when it signs in,
    up to the [await] of [signInWithPassword]: the listener is registered
    by then, so other events can come before the sign-in ends. *)
Definition checkAuth (getSession : Answer) (w : World) : World :=
  let s := storage w in
  match getSession with
  | Threw => setLoading false (signed_out w)
  | Answered session =>
      if session && is_string (stored_isAuthenticated s) "true"
         && present (stored_walletAddress s) && present (stored_userType s)
      then
        setLoading false
          (signed_in (stored_walletAddress s) (stored_userType s) w)
      else if is_string (stored_isAuthenticated s) "true"
              && present (stored_walletAddress s)
              && present (stored_userType s)
      then
        if is_string (stored_userType s) "email"
        then setLoading false (signed_out w)
        else set_restoring (Some (stored_walletAddress s, stored_userType s)) w
      else setLoading false (signed_out w)
  end.

(** The rest of [checkAuth], once [signInWithPassword] has ended (in
    [signIn]); it uses the address and user type read before the wait. *)
Definition checkAuth_resume (signIn : Answer) (w : World) : World :=
  match restoring w with
  | None => w
  | Some (a, t) =>
      setLoading false
        (set_restoring None
           match signIn with
           | Answered true => signed_in a t w
           | Answered false => signed_out w
           | Threw => signed_out w
           end)
  end.

(** The [onAuthStateChange] listener. *)
Definition onAuthStateChange (event : string) (session : bool) (w : World)
    : World :=
  let s := storage w in
  if String.eqb event "SIGNED_IN" && session then
    if present (stored_walletAddress s) && present (stored_userType s)
    then signed_in (stored_walletAddress s) (stored_userType s) w
    else w
  else if String.eqb event "SIGNED_OUT" then signed_out w
  else w.

(** [logout], from the moment [signOut] has ended: whether it threw or not
    makes no difference. *)
Definition logout (signOut : Answer) (w : World) : World := signed_out w.

(** What can happen to the shell; the storage is written by the login
    page, which is not among the sources. *)
Inductive AppEvent :=
| CheckAuth (getSession : Answer)
| SignInEnded (signIn : Answer)
| AuthChanged (event : string) (session : bool)
| Logout (signOut : Answer)
| StorageWritten (s : Storage).

Definition app_step (w : World) (e : AppEvent) : World :=
  match e with
  | CheckAuth g => checkAuth g w
  | SignInEnded s => checkAuth_resume s w
  | AuthChanged ev session => onAuthStateChange ev session w
  | Logout a => logout a w
  | StorageWritten s =>
      {| auth := auth w; storage := s; restoring := restoring w |}
  end.

Definition app_run (w : World) (es : list AppEvent) : World :=
  fold_left app_step es w.

(** The three pieces of authentication state agree. *)
Definition coherent (a : AuthState) : Prop :=
  if isAuthenticated a
  then present (walletAddress a) = true /\ present (userType a) = true
  else walletAddress a = None /\ userType a = None.

(** What a waiting [checkAuth] has read was there. *)
Definition read_present (w : World) : Prop :=
  match restoring w with
  | Some (a, t) => present a = true /\ present t = true
  | None => True
  end.

End App.

(* ================================================================= *)
(** * Facts *)

(** ** The SQL built-ins *)

Module SqlFacts.
Import Sql.

Lemma like_literal pat :
  literal pat = true -> forall s, like pat s = true <-> s = pat.
Proof.
  induction pat as [|c pat IH]; simpl; intros L s.
  - destruct s; split; congruence.
  - apply andb_prop in L as [L Lp]. apply andb_prop in L as [L1 L2].
    apply negb_true_iff in L1, L2. rewrite L1, L2.
    destruct s as [|d s].
    + split; congruence.
    + rewrite andb_true_iff, Ascii.eqb_eq, (IH Lp s).
      split; [intros [-> ->]; reflexivity | intros E; inversion E; auto].
Qed.

Lemma like_percent pat s :
  like (String "%" pat) s = true <->
  exists a b, s = a ++ b /\ like pat b = true.
Proof.
  simpl. induction s as [|d s IH].
  - rewrite orb_false_r. split.
    + intros H. exists "", "". auto.
    + intros (a & b & E & H). destruct a, b; simpl in E; try discriminate.
      exact H.
  - rewrite orb_true_iff. split.
    + intros [H | H].
      * exists "", (String d s). auto.
      * apply IH in H as (a & b & -> & H). exists (String d a), b. auto.
    + intros (a & b & E & H). destruct a as [|d' a]; simpl in E.
      * left. subst b. exact H.
      * right. inversion E; subst. apply IH. eauto.
Qed.

(** [s LIKE '%' || suffix] holds exactly of the strings ending in [suffix]. *)
Lemma like_suffix suffix s :
  literal suffix = true ->
  like (String "%" suffix) s = true <-> exists a, s = a ++ suffix.
Proof.
  intros L. rewrite like_percent. split.
  - intros (a & b & -> & H). apply (like_literal _ L) in H. subst. eauto.
  - intros (a & ->). exists a, suffix. split; auto.
    apply (like_literal _ L). reflexivity.
Qed.

Lemma split_nonempty d s : split d s <> [].
Proof.
  destruct s as [|c s]; simpl; [discriminate|].
  destruct (Ascii.eqb c d); [discriminate|].
  destruct (split d s); discriminate.
Qed.

(** The first field is what precedes the first delimiter, or the whole
    string when it has no delimiter. *)
Lemma split_part_first s d :
  occurs d (split_part s d 1) = false /\
  (s = split_part s d 1 \/
   exists rest, s = split_part s d 1 ++ String d rest).
Proof.
  unfold split_part. simpl. induction s as [|c s IH]; simpl.
  - auto.
  - destruct (Ascii.eqb c d) eqn:E.
    + simpl. split; auto. right. apply Ascii.eqb_eq in E. subst. eauto.
    + pose proof (split_nonempty d s) as NE.
      destruct (split d s) as [|f fs]; [congruence|]. simpl in *.
      destruct IH as [O IH]. rewrite Ascii.eqb_sym, E, O. split; auto.
      destruct IH as [-> | [rest ->]]; eauto.
Qed.

(** A prefix with no delimiter followed by the delimiter is the first
    field. *)
Lemma split_part_prefix a d rest :
  occurs d a = false -> split_part (a ++ String d rest) d 1 = a.
Proof.
  unfold split_part. simpl. induction a as [|c a IH]; simpl; intros O.
  - rewrite Ascii.eqb_refl. reflexivity.
  - apply orb_false_iff in O as [O1 O2]. rewrite Ascii.eqb_sym, O1.
    specialize (IH O2).
    pose proof (split_nonempty d (a ++ String d rest)) as NE.
    destruct (split d (a ++ String d rest)); [congruence|].
    simpl in *. congruence.
Qed.

End SqlFacts.

(** ** Identity resolver *)

Module ResolverFacts.
Import Sql Auth SqlFacts.

Lemma reserved_like e :
  like reserved_pattern e = true <-> exists a, e = a ++ reserved_suffix.
Proof. apply like_suffix. reflexivity. Qed.

Lemma resolver_unfold (p : principal) :
  get_user_wallet_address p =
  match email p with
  | Some e =>
      if like reserved_pattern e then Some (split_part e "@" 1)
      else Some (uuid_text (uid p))
  | None => Some (uuid_text (uid p))
  end.
Proof.
  unfold get_user_wallet_address, sql_like, case_when.
  destruct (email p) as [e|]; cbn [option_map coalesce]; [|reflexivity].
  destruct (like reserved_pattern e); reflexivity.
Qed.

(** C1.  For every authenticated principal: when the email ends in
    [@kraken.web3] the resolver returns the part of the email before its
    (first) [@]; in every other case, a null email included, it returns the
    principal's id as text.  In particular an address with no [@] of its own
    is returned as such. *)
Theorem resolver_cases (p : principal) :
  (forall e, email p = Some e -> (exists a, e = a ++ reserved_suffix) ->
     exists local rest,
       e = local ++ String "@" rest /\ occurs "@" local = false /\
       get_user_wallet_address p = Some local)
  /\ (forall a, email p = Some (a ++ reserved_suffix) -> occurs "@" a = false ->
        get_user_wallet_address p = Some a)
  /\ ((forall e, email p = Some e -> ~ exists a, e = a ++ reserved_suffix) ->
        get_user_wallet_address p = Some (uuid_text (uid p))).
Proof.
  rewrite resolver_unfold. split; [|split].
  - intros e E S. rewrite E.
    apply reserved_like in S as L. rewrite L.
    destruct (split_part_first e "@") as [O [W | [rest W]]].
    + exfalso. destruct S as [a S]. rewrite W in S. rewrite S in O.
      clear -O. induction a; simpl in *; [discriminate|].
      apply orb_false_iff in O as [_ O]. auto.
    + exists (split_part e "@" 1), rest. auto.
  - intros a E O. rewrite E.
    assert (L : like reserved_pattern (a ++ reserved_suffix) = true)
      by (apply reserved_like; eauto).
    rewrite L. f_equal. apply (split_part_prefix a "@" "kraken.web3" O).
  - intros H. destruct (email p) as [e|] eqn:E; auto.
    destruct (like reserved_pattern e) eqn:L; auto.
    exfalso. apply (H e eq_refl). apply reserved_like. exact L.
Qed.

Example resolver_wallet :
  get_user_wallet_address
    {| uid := 7%N; email := Some "0xabc@kraken.web3" |} = Some "0xabc".
Proof. reflexivity. Qed.

Example resolver_native :
  get_user_wallet_address {| uid := 255%N; email := Some "bob@example.org" |}
  = Some "00000000-0000-0000-0000-0000000000ff".
Proof. reflexivity. Qed.

Example resolver_no_email :
  get_user_wallet_address {| uid := 4096%N; email := None |}
  = Some "00000000-0000-0000-0000-000000001000".
Proof. reflexivity. Qed.

End ResolverFacts.

(** ** Access policies *)

Module PolicyFacts.
Import Sql Auth Db Scenario.

Lemma in_bucket_iff o :
  in_attachments_bucket o = true <-> bucket_id o = "attachments".
Proof. apply String.eqb_eq. Qed.

Lemma role_eqb_iff a b : role_eqb a b = true <-> a = b.
Proof. destruct a, b; simpl; split; congruence. Qed.

(** The sub-select of the attachment policies implies participation. *)
Lemma attachment_join_participant r p d a :
  attachment_join r p d a = true -> owning_participant p d a.
Proof.
  unfold attachment_join. intros H.
  apply existsb_exists in H as (m & Hm & H).
  apply andb_prop in H as [H Hc]. apply andb_prop in H as [_ Hid].
  apply existsb_exists in Hc as (c & Hc & H).
  apply andb_prop in H as [H Hin]. apply andb_prop in H as [_ Hci].
  exists m, c. repeat split; auto.
  - apply N.eqb_eq. exact Hid.
  - destruct (conversation_id m) as [ci|]; [|discriminate].
    apply N.eqb_eq in Hci. congruence.
Qed.

Lemma bucket_permitted_eq r op :
  bucket_permitted r op =
  role_eqb r authenticated && forallb in_attachments_bucket (touched op).
Proof.
  destruct op as [o | old new | o]; destruct r; simpl;
    unfold can_insert, can_update, can_delete, rls_new, rls_old,
      using_expr, check_expr; simpl;
    rewrite ?orb_false_r, ?andb_true_r; reflexivity.
Qed.

(** C3, as the migration has it.  The bucket policies look at the bucket
    only: an authenticated caller may write, update and delete every object
    of [attachments], and nobody else may under these policies.  The join
    through message and conversation guards the rows of the [attachments]
    table instead: inserting one requires the caller to be a participant of
    the conversation owning the message. *)
Theorem bucket_policies_test_bucket_only :
  (forall r op,
      bucket_permitted r op = true <->
      r = authenticated /\
      Forall (fun o => bucket_id o = "attachments") (touched op))
  /\ (forall r p d a,
        can_insert (attachments_policies r p d) r a = true ->
        owning_participant p d a).
Proof.
  split.
  - intros r op. rewrite bucket_permitted_eq, andb_true_iff, role_eqb_iff.
    rewrite forallb_forall, Forall_forall.
    split; intros [Hr H]; split; auto; intros o Ho; apply in_bucket_iff; auto.
  - intros r p d a H. unfold can_insert, rls_new in H.
    apply existsb_exists in H as (pol & Hin & H).
    apply andb_prop in H as [Ha Hc].
    simpl in Hin. destruct Hin as [<- | [<- | []]].
    + destruct r; discriminate.
    + unfold check_expr in Hc. simpl in Hc.
      eapply attachment_join_participant; eauto.
Qed.

(** C3, as the claim words it, fails: Carol, who is in no conversation, may
    write, replace and delete an object that belongs to a message between
    Alice and Bob. *)
Lemma bucket_open_to_outsider :
  bucket_permitted authenticated (Put photo) = true /\
  bucket_permitted authenticated (Replace photo photo') = true /\
  bucket_permitted authenticated (Remove photo) = true /\
  get_user_wallet_address carol = Some "0xcc" /\
  ~ owning_participant carol shared_db photo_row.
Proof.
  repeat split; try reflexivity.
  intros (m & c & Hm & _ & Hc & _ & H).
  simpl in Hc. destruct Hc as [<- | []]. vm_compute in H. discriminate.
Qed.

End PolicyFacts.

(** ** Conversation materializer *)

Module MaterializerFacts.
Import Sql Auth Db Materializer Scenario.

Lemma limit1_first_row : limit1 first_row.
Proof. intros [|c l]; simpl; auto. Qed.

Lemma limit1_nil pick : limit1 pick -> pick [] = None.
Proof.
  intros L. specialize (L []). destruct (pick []); [contradiction | reflexivity].
Qed.

Lemma contains1_In arr x : contains1 arr x = true <-> In x arr.
Proof.
  unfold contains1. rewrite existsb_exists. split.
  - intros (y & Hy & E). apply String.eqb_eq in E. subst. exact Hy.
  - intros H. exists x. split; auto. apply String.eqb_refl.
Qed.

Lemma pair_query_iff nw c :
  pair_query nw c = true <->
  In (sender nw) (participants c) /\ In (receiver nw) (participants c) /\
  List.length (participants c) = 2.
Proof.
  unfold pair_query.
  rewrite !andb_true_iff, !contains1_In, Nat.eqb_eq. tauto.
Qed.

(** The lookup does not depend on who is sender and who is receiver. *)
Lemma pair_query_sym m1 m2 c :
  sender m2 = receiver m1 -> receiver m2 = sender m1 ->
  pair_query m2 c = pair_query m1 c.
Proof.
  intros Hs Hr. unfold pair_query. rewrite Hs, Hr.
  f_equal. apply andb_comm.
Qed.

Lemma pair_query_bind m ci c : pair_query (bind m ci) c = pair_query m c.
Proof. reflexivity. Qed.

(** The two outcomes of the before-trigger on a row with no conversation. *)
Lemma before_trigger_cases pick g cs row :
  limit1 pick -> conversation_id row = None ->
  (filter (pair_query row) cs = [] /\
   update_conversation_on_message pick g cs row
   = ((cs ++ [new_conversation g row])%list, bind row (gen_id g)))
  \/ (exists c, In c cs /\ pair_query row c = true /\
        update_conversation_on_message pick g cs row = (cs, bind row (conv_id c))).
Proof.
  intros L N. unfold update_conversation_on_message. rewrite N.
  specialize (L (filter (pair_query row) cs)).
  destruct (pick (filter (pair_query row) cs)) as [c|]; simpl.
  - right. apply filter_In in L as [Hin Hq]. eauto.
  - left. auto.
Qed.

Lemma before_trigger_keeps pick g cs row :
  let nw := snd (update_conversation_on_message pick g cs row) in
  sender nw = sender row /\ receiver nw = receiver row /\
  content nw = content row /\ created_at nw = created_at row.
Proof.
  unfold update_conversation_on_message.
  destruct (conversation_id row); simpl; auto.
  destruct (option_map conv_id _); simpl; auto.
Qed.

Lemma after_trigger_In cs nw c :
  In c (update_conversation_last_message cs nw) ->
  exists c0, In c0 cs /\ c = if bound_to nw c0 then rollup nw c0 else c0.
Proof.
  unfold update_conversation_last_message. rewrite in_map_iff.
  intros (c0 & E & H). eauto.
Qed.

Lemma after_trigger_image cs nw c0 :
  In c0 cs ->
  exists c, In c (update_conversation_last_message cs nw) /\
            conv_id c = conv_id c0 /\ participants c = participants c0.
Proof.
  intros H. exists (if bound_to nw c0 then rollup nw c0 else c0). split.
  - unfold update_conversation_last_message.
    apply (in_map (fun c => if bound_to nw c then rollup nw c else c)). exact H.
  - destruct (bound_to nw c0); auto.
Qed.

Lemma after_trigger_filter (f : conversation -> bool) cs nw :
  (forall c, f (rollup nw c) = f c) ->
  List.length (filter f (update_conversation_last_message cs nw))
  = List.length (filter f cs).
Proof.
  intros Hf. induction cs as [|c cs IH]; simpl; auto.
  assert (E : f (if bound_to nw c then rollup nw c else c) = f c)
    by (destruct (bound_to nw c); auto).
  rewrite E. destruct (f c); simpl; auto.
Qed.

Lemma insert_message_inv pick g r p d row d' nw :
  insert_message pick g r p d row = Some (d', nw) ->
  exists cs,
    update_conversation_on_message pick g (conversations d) row = (cs, nw) /\
    conversations d' = update_conversation_last_message cs nw /\
    messages d' = (messages d ++ [nw])%list /\
    can_insert (messages_policies p) r nw = true.
Proof.
  unfold insert_message.
  destruct (update_conversation_on_message pick g (conversations d) row)
    as [cs nw1].
  destruct (can_insert (messages_policies p) r nw1) eqn:C; [|discriminate].
  intros E. inversion E; subst. exists cs. simpl. auto.
Qed.

(** C5.  Once a message row has been inserted and the after-trigger has run,
    every conversation row the stored message is bound to carries the
    message's content and time, whatever was stored there before and
    whatever the order of the times; and a message that came without a
    conversation id is bound to a row of the table. *)
Theorem rollup_takes_inserted_message pick g r p d row d' nw :
  insert_message pick g r p d row = Some (d', nw) ->
  (forall c, In c (conversations d') ->
             conversation_id nw = Some (conv_id c) ->
             last_message c = content row /\
             last_message_time c = created_at row /\
             updated_at c = created_at row)
  /\ (limit1 pick -> conversation_id row = None ->
      exists c, In c (conversations d') /\
                conversation_id nw = Some (conv_id c)).
Proof.
  intros H. apply insert_message_inv in H as (cs & Hb & Hc & _ & _).
  pose proof (before_trigger_keeps pick g (conversations d) row) as K.
  rewrite Hb in K. simpl in K. destruct K as (_ & _ & Kc & Kt).
  split.
  - intros c Hin Hid. rewrite Hc in Hin.
    apply after_trigger_In in Hin as (c0 & _ & E).
    destruct (bound_to nw c0) eqn:B; subst c.
    + simpl. auto.
    + exfalso. unfold bound_to in B. rewrite Hid, N.eqb_refl in B.
      discriminate.
  - intros L N.
    destruct (before_trigger_cases pick g (conversations d) row L N)
      as [[_ E] | (c0 & Hin & _ & E)];
      rewrite E in Hb; inversion Hb; subst cs nw; clear Hb.
    + destruct (after_trigger_image
                  (conversations d ++ [new_conversation g row])
                  (bind row (gen_id g)) (new_conversation g row))
        as (c & Hc1 & Hc2 & _).
      { apply in_or_app. right. left. reflexivity. }
      exists c. rewrite Hc. split; auto. simpl. rewrite Hc2. reflexivity.
    + destruct (after_trigger_image (conversations d)
                  (bind row (conv_id c0)) c0 Hin) as (c & Hc1 & Hc2 & _).
      exists c. rewrite Hc. split; auto. simpl. rewrite Hc2. reflexivity.
Qed.

Lemma pair_query_participants m c c' :
  participants c = participants c' -> pair_query m c = pair_query m c'.
Proof. unfold pair_query. intros ->. reflexivity. Qed.

Lemma after_trigger_image_group cs nw c0 :
  In c0 cs ->
  exists c, In c (update_conversation_last_message cs nw) /\
            conv_id c = conv_id c0 /\ participants c = participants c0 /\
            is_group c = is_group c0.
Proof.
  intros H. exists (if bound_to nw c0 then rollup nw c0 else c0). split.
  - unfold update_conversation_last_message.
    apply (in_map (fun c => if bound_to nw c then rollup nw c else c)). exact H.
  - destruct (bound_to nw c0); auto.
Qed.

(** C4.  From a state with no two-participant conversation holding both [A]
    and [B], a message from [A] to [B] and then a message from [B] to [A],
    both without conversation id, are stored with one and the same
    conversation id, whichever row the executor returns for [LIMIT 1].  The
    id is the one generated for the row that the first insert creates; that
    row, with the participants [[A, B]], is in the table afterwards, it is
    the only row added, and both messages are stored bound to it. *)
Theorem both_directions_share_conversation
    pick1 pick2 g1 g2 r1 p1 r2 p2 d A B m1 m2 d1 n1 d2 n2 :
  limit1 pick1 -> limit1 pick2 ->
  sender m1 = A -> receiver m1 = B -> conversation_id m1 = None ->
  sender m2 = B -> receiver m2 = A -> conversation_id m2 = None ->
  (forall c, In c (conversations d) ->
     ~ (List.length (participants c) = 2 /\
        In A (participants c) /\ In B (participants c))) ->
  insert_message pick1 g1 r1 p1 d m1 = Some (d1, n1) ->
  insert_message pick2 g2 r2 p2 d1 m2 = Some (d2, n2) ->
  conversation_id n1 = Some (gen_id g1) /\
  conversation_id n2 = Some (gen_id g1) /\
  (exists c, In c (conversations d2) /\ conv_id c = gen_id g1 /\
             participants c = [A; B] /\ is_group c = false) /\
  List.length (conversations d2) = S (List.length (conversations d)) /\
  messages d2 = (messages d ++ [n1; n2])%list /\
  sender n1 = A /\ receiver n1 = B /\ sender n2 = B /\ receiver n2 = A.
Proof.
  intros L1 L2 S1 R1 N1 S2 R2 N2 Hno H1 H2.
  pose proof (before_trigger_keeps pick1 g1 (conversations d) m1) as K1.
  pose proof (before_trigger_keeps pick2 g2 (conversations d1) m2) as K2.
  apply insert_message_inv in H1 as (cs1 & Hb1 & Hc1 & Hm1 & _).
  apply insert_message_inv in H2 as (cs2 & Hb2 & Hc2 & Hm2 & _).
  rewrite Hb1 in K1. rewrite Hb2 in K2. simpl in K1, K2.
  destruct K1 as (K1s & K1r & _). destruct K2 as (K2s & K2r & _).
  destruct (before_trigger_cases pick1 g1 (conversations d) m1 L1 N1)
    as [[_ E1] | (c & Hin & Hq & _)].
  2:{ exfalso. apply pair_query_iff in Hq as (Ha & Hb & Hl).
      rewrite S1 in Ha. rewrite R1 in Hb. apply (Hno c Hin). auto. }
  rewrite E1 in Hb1. inversion Hb1 as [[Ecs1 En1]]. subst cs1 n1.
  clear E1 Hb1.
  assert (Hn1 : conversation_id (bind m1 (gen_id g1)) = Some (gen_id g1))
    by reflexivity.
  assert (Hsym : forall c, pair_query m2 c = pair_query m1 c).
  { intros c. apply pair_query_sym; congruence. }
  destruct (after_trigger_image_group
              (conversations d ++ [new_conversation g1 m1])
              (bind m1 (gen_id g1)) (new_conversation g1 m1))
    as (c1 & Hc1in & Hc1id & Hc1p & Hc1g).
  { apply in_or_app. right. left. reflexivity. }
  rewrite <- Hc1 in Hc1in.
  assert (Q1 : pair_query m2 c1 = true).
  { rewrite (pair_query_participants m2 c1 (new_conversation g1 m1) Hc1p).
    rewrite Hsym. apply pair_query_iff. simpl. auto. }
  destruct (before_trigger_cases pick2 g2 (conversations d1) m2 L2 N2)
    as [[F _] | (c' & Hin & Hq & E2)].
  { exfalso.
    assert (Hf : In c1 (filter (pair_query m2) (conversations d1)))
      by (apply filter_In; auto).
    rewrite F in Hf. exact Hf. }
  rewrite E2 in Hb2. inversion Hb2 as [[Ecs2 En2]]. subst cs2 n2.
  clear Hb2.
  assert (Hid : conv_id c' = gen_id g1).
  { rewrite Hc1 in Hin. apply after_trigger_In in Hin as (c0 & Hin0 & E).
    assert (X : conv_id c' = conv_id c0 /\ participants c' = participants c0)
      by (subst c'; destruct (bound_to _ c0); auto).
    destruct X as [Xi Xp]. rewrite Xi.
    apply in_app_or in Hin0 as [Hin0 | [<- | []]]; [|reflexivity].
    exfalso.
    rewrite (pair_query_participants m2 c' c0 Xp), Hsym in Hq.
    apply pair_query_iff in Hq as (Ha & Hb & Hl).
    rewrite S1 in Ha. rewrite R1 in Hb. apply (Hno c0 Hin0). auto. }
  assert (Hn2 : conversation_id (bind m2 (conv_id c')) = Some (gen_id g1))
    by (simpl; rewrite Hid; reflexivity).
  split; [exact Hn1|]. split; [exact Hn2|]. split; [|split; [|split]].
  - destruct (after_trigger_image_group (conversations d1)
                (bind m2 (conv_id c')) c1 Hc1in)
      as (c2 & Hc2in & Hc2id & Hc2p & Hc2g).
    exists c2. rewrite <- Hc2 in Hc2in. split; auto.
    rewrite Hc2id, Hc2p, Hc2g, Hc1id, Hc1p, Hc1g. simpl. rewrite S1, R1.
    repeat split; auto.
  - rewrite Hc2, Hc1. unfold update_conversation_last_message.
    rewrite !length_map, length_app. simpl. lia.
  - rewrite Hm2, Hm1, <- app_assoc. reflexivity.
  - simpl. repeat split; congruence.
Qed.

Lemma both_directions_share_conversation_witness :
  exists d1 n1 d2 n2,
    insert_message first_row gen1 authenticated alice empty_db a_to_b
      = Some (d1, n1) /\
    insert_message first_row gen2 authenticated bob d1 b_to_a = Some (d2, n2) /\
    conversation_id n1 = Some 101%N /\ conversation_id n2 = Some 101%N /\
    map (fun c => (conv_id c, participants c)) (conversations d2)
      = [(101%N, ["0xaa"; "0xbb"])].
Proof.
  destruct (insert_message first_row gen1 authenticated alice empty_db a_to_b)
    as [[d1 n1]|] eqn:I1; [|vm_compute in I1; discriminate].
  destruct (insert_message first_row gen2 authenticated bob d1 b_to_a)
    as [[d2 n2]|] eqn:I2;
    [|vm_compute in I1; inversion I1; subst; vm_compute in I2; discriminate].
  exists d1, n1, d2, n2. split; [reflexivity|]. split; [exact I2|].
  destruct (both_directions_share_conversation first_row first_row gen1 gen2
              authenticated alice authenticated bob empty_db "0xaa" "0xbb"
              a_to_b b_to_a d1 n1 d2 n2 limit1_first_row limit1_first_row
              eq_refl eq_refl eq_refl eq_refl eq_refl eq_refl
              (fun c (H : In c []) => match H with end) I1 I2)
    as (H1 & H2 & _).
  split; [exact H1|]. split; [exact H2|].
  vm_compute in I1. inversion I1; subst.
  vm_compute in I2. inversion I2; subst. reflexivity.
Defined.

(** Bob's earlier-dated message arrives after Alice's: the conversation
    row, which held time 20, takes Bob's content and time 10. *)
Lemma rollup_takes_inserted_message_witness :
  map last_message_time (conversations after_a_to_b) = [20%Z] /\
  created_at b_to_a = 10%Z /\
  exists d2 n2,
    insert_message first_row gen2 authenticated bob after_a_to_b b_to_a
      = Some (d2, n2) /\
    (forall c, In c (conversations d2) ->
               conversation_id n2 = Some (conv_id c) ->
               last_message c = content b_to_a /\
               last_message_time c = created_at b_to_a /\
               updated_at c = created_at b_to_a) /\
    (limit1 first_row -> conversation_id b_to_a = None ->
     exists c, In c (conversations d2) /\
               conversation_id n2 = Some (conv_id c)).
Proof.
  split; [reflexivity|]. split; [reflexivity|].
  eexists _, _. split; [vm_compute; reflexivity|].
  apply (rollup_takes_inserted_message first_row gen2 authenticated bob
           after_a_to_b b_to_a).
  vm_compute. reflexivity.
Defined.

Lemma self_or_other (s x y : string) :
  In s [x; y] -> [x; y] <> [s; s] -> exists o, In o [x; y] /\ o <> s.
Proof.
  intros Hin Hne.
  destruct (string_dec x s) as [-> | Hx]; [|exists x; simpl; auto].
  destruct (string_dec y s) as [-> | Hy]; [|exists y; simpl; auto].
  congruence.
Qed.

(** C9, as the trigger has it.  A message to oneself with no conversation
    id, sent while some two-participant conversation holds the sender,
    creates no conversation and is bound to a row of the table that has two
    participants, the sender among them.  When the table has no row
    [[s, s]] that row is shared with another identity. *)
Theorem self_message_reuses_conversation pick g cs row :
  limit1 pick ->
  sender row = receiver row -> conversation_id row = None ->
  (exists c other,
      In c cs /\ List.length (participants c) = 2 /\
      In (sender row) (participants c) /\
      In other (participants c) /\ other <> sender row) ->
  exists c',
    In c' cs /\ List.length (participants c') = 2 /\
    In (sender row) (participants c') /\
    update_conversation_on_message pick g cs row = (cs, bind row (conv_id c')) /\
    ((forall c'', In c'' cs -> participants c'' <> [sender row; sender row]) ->
     exists other, In other (participants c') /\ other <> sender row).
Proof.
  intros L S N (c & other & Hin & Hl & Hs & _).
  destruct (before_trigger_cases pick g cs row L N)
    as [[F _] | (c' & Hin' & Hq & E)].
  - exfalso.
    assert (Q : pair_query row c = true).
    { apply pair_query_iff. rewrite <- S. auto. }
    assert (Hf : In c (filter (pair_query row) cs)) by (apply filter_In; auto).
    rewrite F in Hf. exact Hf.
  - exists c'. apply pair_query_iff in Hq as (Ha & _ & Hl').
    repeat split; auto.
    intros Hno. specialize (Hno c' Hin').
    destruct (participants c') as [|x [|y [|z ps]]]; try discriminate.
    apply self_or_other; auto.
Qed.

Lemma self_message_reuses_conversation_witness :
  let cs := [conv 100%N ["0xaa"; "0xbb"]] in
  exists c',
    In c' cs /\ List.length (participants c') = 2 /\
    In (sender note1) (participants c') /\
    update_conversation_on_message first_row gen1 cs note1
      = (cs, bind note1 (conv_id c')) /\
    ((forall c'', In c'' cs ->
                  participants c'' <> [sender note1; sender note1]) ->
     exists other, In other (participants c') /\ other <> sender note1).
Proof.
  apply (self_message_reuses_conversation first_row gen1
           [conv 100%N ["0xaa"; "0xbb"]] note1 limit1_first_row
           eq_refl eq_refl).
  exists (conv 100%N ["0xaa"; "0xbb"]), "0xbb". simpl.
  repeat split; auto. discriminate.
Defined.

(** C9, as the claim words it, fails.  After a note to herself and a message
    to Bob, Alice has the rows [[0xaa, 0xaa]] (id 101) and [[0xaa, 0xbb]]
    (id 102); her next note is bound to 101, the self-conversation, although
    she has a conversation with Bob. *)
Lemma self_message_bound_to_self_conversation :
  let d := run empty_db note_then_chat in
  map (fun c => (conv_id c, participants c)) (conversations d)
    = [(101%N, ["0xaa"; "0xaa"]); (102%N, ["0xaa"; "0xbb"])] /\
  Forall fair note_then_chat /\
  update_conversation_on_message first_row gen3 (conversations d) note2
    = (conversations d, bind note2 101%N).
Proof.
  split; [reflexivity|]. split; [|reflexivity].
  repeat constructor; apply limit1_first_row.
Qed.

Lemma pair_conversation_new_query a b g row c :
  pair_conversation a b c = true ->
  pair_conversation a b (new_conversation g row) = true ->
  pair_query row c = true.
Proof.
  unfold pair_conversation. simpl. intros H1 H2.
  apply andb_prop in H1 as [_ H1].
  apply pair_query_iff.
  destruct (participants c) as [|x [|y [|z ps]]]; try discriminate.
  repeat rewrite orb_true_iff, !andb_true_iff, !String.eqb_eq in *.
  simpl. destruct H1 as [[-> ->] | [-> ->]], H2 as [[-> ->] | [-> ->]]; auto.
Qed.

Lemma insert_message_keeps_pairs pick g r p d row d' nw :
  limit1 pick ->
  insert_message pick g r p d row = Some (d', nw) ->
  pair_unique (conversations d) -> pair_unique (conversations d').
Proof.
  intros L H U a b.
  apply insert_message_inv in H as (cs & Hb & Hc & _ & _).
  rewrite Hc, after_trigger_filter by reflexivity.
  destruct (conversation_id row) as [ci|] eqn:N.
  - unfold update_conversation_on_message in Hb. rewrite N in Hb.
    inversion Hb; subst. apply U.
  - destruct (before_trigger_cases pick g (conversations d) row L N)
      as [[F E] | (c & _ & _ & E)];
      rewrite E in Hb; inversion Hb; subst cs nw; clear Hb; [|apply U].
    rewrite filter_app, length_app. simpl.
    destruct (pair_conversation a b (new_conversation g row)) eqn:P; simpl.
    + destruct (filter (pair_conversation a b) (conversations d))
        as [|c l] eqn:Fa; [simpl; lia|].
      exfalso.
      assert (Hin : In c (filter (pair_conversation a b) (conversations d)))
        by (rewrite Fa; left; reflexivity).
      apply filter_In in Hin as [Hin Hp].
      assert (Hq : In c (filter (pair_query row) (conversations d))).
      { apply filter_In. split; auto.
        eapply pair_conversation_new_query; eauto. }
      rewrite F in Hq. exact Hq.
    + specialize (U a b). lia.
Qed.

(** C2, as the migration has it.  Message inserts executed one after
    another keep the table at one non-group row per unordered pair, through
    the lookup that precedes the insert in the trigger.  Nothing else guards
    the pair: in every such state a direct insert that the conversations
    policy accepts appends its row, whatever rows are there. *)
Theorem message_inserts_keep_pairs_unique d ss :
  pair_unique (conversations d) ->
  Forall fair ss -> Forall is_message_insert ss ->
  pair_unique (conversations (run d ss))
  /\ (forall r p row,
        can_insert (conversations_policies p) r row = true ->
        conversations (exec (run d ss) (InsertConversation r p row))
        = (conversations (run d ss) ++ [row])%list).
Proof.
  intros U F M. split.
  - revert d U. induction ss as [|s ss IH]; intros d U; [exact U|].
    inversion F as [|? ? Fs F']; inversion M as [|? ? Ms M']; subst.
    simpl. apply IH; auto.
    destruct s as [pick g r p row | r p row]; [|contradiction].
    simpl in *.
    destruct (insert_message pick g r p d row) as [[d' nw]|] eqn:E; auto.
    eapply insert_message_keeps_pairs; eauto.
  - intros r p row C. simpl. unfold insert_conversation. rewrite C.
    reflexivity.
Qed.

Lemma message_inserts_keep_pairs_unique_witness :
  map participants (conversations (run empty_db exchange))
    = [["0xaa"; "0xbb"]] /\
  pair_unique (conversations (run empty_db exchange)) /\
  (forall r p row,
      can_insert (conversations_policies p) r row = true ->
      conversations (exec (run empty_db exchange) (InsertConversation r p row))
      = (conversations (run empty_db exchange) ++ [row])%list).
Proof.
  split; [reflexivity|].
  apply (message_inserts_keep_pairs_unique empty_db exchange).
  - intros a b. simpl. lia.
  - repeat constructor; apply limit1_first_row.
  - repeat constructor.
Defined.

(** C2, as the claim words it, fails: two inserts into [conversations],
    each accepted by the insert policy, leave two non-group rows for the
    pair of Alice and Bob. *)
Lemma duplicate_pair_reachable :
  reachable (run empty_db twice) /\
  map participants (conversations (run empty_db twice))
    = [["0xaa"; "0xbb"]; ["0xaa"; "0xbb"]] /\
  ~ pair_unique (conversations (run empty_db twice)).
Proof.
  split; [|split].
  - exists twice. split; [repeat constructor | reflexivity].
  - reflexivity.
  - intros U. specialize (U "0xaa" "0xbb"). vm_compute in U. lia.
Qed.

End MaterializerFacts.

(** ** The stable sort *)

Module JsFacts.
Import Js.

Section SortFacts.
Context {A : Type} (cmp : A -> A -> Z).

Lemma insert_perm x l : Permutation (insert cmp x l) (x :: l).
Proof.
  induction l as [|y l IH]; simpl; auto.
  destruct (cmp x y <=? 0)%Z; auto.
  rewrite IH. apply perm_swap.
Qed.

Lemma sort_perm l : Permutation (sort cmp l) l.
Proof.
  induction l as [|x l IH]; simpl; auto.
  rewrite insert_perm. auto.
Qed.

(** A comparator that decides a total preorder [le]. *)
Hypothesis le : A -> A -> Prop.
Hypothesis le_trans : forall a b c, le a b -> le b c -> le a c.
Hypothesis cmp_le : forall a b, (cmp a b <= 0)%Z -> le a b.
Hypothesis cmp_gt : forall a b, (0 < cmp a b)%Z -> le b a.

Lemma insert_sorted x l :
  StronglySorted le l -> StronglySorted le (insert cmp x l).
Proof.
  induction l as [|y l IH]; simpl; intros S.
  - constructor; auto.
  - apply StronglySorted_inv in S as [S F].
    destruct (Z.leb_spec (cmp x y) 0) as [H | H].
    + constructor; [constructor; auto|].
      constructor; [apply cmp_le; auto|].
      eapply Forall_impl; [|exact F]. intros a Ha.
      eapply le_trans; [apply cmp_le|]; eauto.
    + constructor; [apply IH; auto|].
      apply Forall_forall. intros a Ha.
      apply (Permutation_in _ (insert_perm x l)) in Ha as [<- | Ha].
      * apply cmp_gt. exact H.
      * rewrite Forall_forall in F. auto.
Qed.

Lemma sort_sorted l : StronglySorted le (sort cmp l).
Proof.
  induction l as [|x l IH]; simpl; [constructor | apply insert_sorted; auto].
Qed.

End SortFacts.

(** Stability at the end of the list: an element appended last that is not
    smaller than the others stays last. *)
Section SortLast.
Context {A : Type} (cmp : A -> A -> Z).

Lemma insert_keeps_last x l m :
  (cmp x m <= 0)%Z -> exists l', insert cmp x (l ++ [m]) = (l' ++ [m])%list.
Proof.
  intros H. induction l as [|y l [l' IH]]; simpl.
  - apply Z.leb_le in H. rewrite H. exists [x]. reflexivity.
  - destruct (cmp x y <=? 0)%Z.
    + exists (x :: y :: l). reflexivity.
    + exists (y :: l'). rewrite IH. reflexivity.
Qed.

Lemma sort_keeps_last l m :
  (forall x, In x l -> (cmp x m <= 0)%Z) ->
  exists l', sort cmp (l ++ [m]) = (l' ++ [m])%list.
Proof.
  induction l as [|x l IH]; simpl; intros H.
  - exists []. reflexivity.
  - destruct IH as [l' E]; [auto|]. rewrite E.
    apply insert_keeps_last. auto.
Qed.

End SortLast.

(** *** [trim] *)

Lemma trim_start_blank s : blank (trim_start s) = blank s.
Proof.
  remember (String.length s) as n eqn:E. revert s E.
  induction n as [n IH] using lt_wf_ind. intros s ->.
  destruct s as [|a s1]; [reflexivity|].
  cbn [trim_start blank]. destruct (is_space a) eqn:A.
  { apply (IH (String.length s1)); simpl; auto. }
  destruct s1 as [|b s2].
  { cbn [blank]. rewrite A. reflexivity. }
  destruct (is_space2 a b) eqn:B.
  { apply (IH (String.length s2)); simpl; auto. }
  destruct s2 as [|c s3].
  { cbn [blank]. rewrite A, B. reflexivity. }
  destruct (is_space3 a b c) eqn:C.
  { apply (IH (String.length s3)); simpl; auto. }
  cbn [blank]. rewrite A, B, C. reflexivity.
Qed.

Lemma trim_end_empty s : trim_end s = "" <-> blank s = true.
Proof.
  destruct s as [|a s1]; [split; reflexivity|].
  cbn [trim_end]. destruct (blank (String a s1)); split; congruence.
Qed.

(** [trim] gives the empty string exactly for white space only. *)
Lemma trim_empty_iff s : trim s = "" <-> blank s = true.
Proof. unfold trim. rewrite trim_end_empty, trim_start_blank. reflexivity. Qed.

Lemma truthy_trim s : truthy (trim s) = negb (blank s).
Proof.
  destruct (blank s) eqn:B.
  - apply trim_empty_iff in B. rewrite B. reflexivity.
  - destruct (trim s) eqn:T; [|reflexivity].
    apply trim_empty_iff in T. congruence.
Qed.

End JsFacts.

(** ** Client reconciliation engine *)

Module ClientFacts.
Import Js Client JsFacts ClientScenario.

Lemma sort_nondecreasing l : nondecreasing (sort by_timestamp l).
Proof.
  apply sort_sorted; unfold by_timestamp; intros; lia.
Qed.

Lemma map_nondecreasing (f : Message -> Message) l :
  (forall m, timestamp (f m) = timestamp m) ->
  nondecreasing l -> nondecreasing (map f l).
Proof.
  intros Hf. unfold nondecreasing.
  induction 1 as [|a l S IH F]; simpl; constructor; auto.
  apply Forall_map. eapply Forall_impl; [|exact F].
  intros b Hb. simpl. rewrite !Hf. exact Hb.
Qed.

Lemma has_id_iff i l :
  has_id i l = true <-> exists m, In m l /\ id m = i.
Proof.
  unfold has_id. rewrite existsb_exists.
  split; intros (m & Hm & E); exists m; split; auto; apply String.eqb_eq; auto.
Qed.

Lemma and_then_normal {A B} (c : Completion A) (k : A -> Completion B) b :
  and_then c k = Normal b -> exists a, c = Normal a /\ k a = Normal b.
Proof. destruct c as [a|]; simpl; [eauto | discriminate]. Qed.

(** *** When the derivation throws *)

Lemma visit_normal cm x cm' : visit cm x = Normal cm' -> cm' = visited cm x.
Proof.
  unfold visit, visited, toISOString.
  destruct (map_get (conversationId x) cm) as [conv|].
  - destruct (timestamp x >? last_message_time conv)%Z.
    + destruct (valid_time (timestamp x)); simpl; intros E; inversion E;
        reflexivity.
    + intros E; inversion E; reflexivity.
  - destruct (valid_time (timestamp x)); simpl; intros E; inversion E;
      reflexivity.
Qed.

Lemma visit_valid cm x :
  valid_time (timestamp x) = true -> visit cm x = Normal (visited cm x).
Proof.
  intros V. unfold visit, visited, toISOString. rewrite V.
  destruct (map_get (conversationId x) cm) as [conv|]; simpl; auto.
  destruct (timestamp x >? last_message_time conv)%Z; reflexivity.
Qed.

Lemma build_map_snoc l x :
  build_map (l ++ [x])%list = and_then (build_map l) (fun cm => visit cm x).
Proof. unfold build_map. rewrite fold_left_app. reflexivity. Qed.

Lemma built_snoc l x : built (l ++ [x])%list = visited (built l) x.
Proof. unfold built. rewrite fold_left_app. reflexivity. Qed.

(** A derivation that completes has built the map. *)
Lemma build_map_normal l cm : build_map l = Normal cm -> cm = built l.
Proof.
  revert cm. induction l as [|x l IH] using rev_ind; intros cm E.
  - inversion E. reflexivity.
  - rewrite build_map_snoc in E. apply and_then_normal in E as (cm0 & E0 & E).
    apply IH in E0. subst cm0. apply visit_normal in E.
    rewrite built_snoc. exact E.
Qed.

(** With valid dates throughout it does complete. *)
Lemma build_map_valid l : valid_times l -> build_map l = Normal (built l).
Proof.
  induction l as [|x l IH] using rev_ind; intros V; [reflexivity|].
  apply Forall_app in V as [V Vx]. inversion Vx as [|? ? Hx _]; subst.
  rewrite build_map_snoc, (IH V), built_snoc. simpl. apply visit_valid. exact Hx.
Qed.

Lemma derive_messages w l st st' :
  derive w l st = Normal st' -> messages st' = messages st.
Proof.
  unfold derive. intros E. apply and_then_normal in E as (r & _ & E).
  inversion E. destruct r; reflexivity.
Qed.

Lemma derive_valid w l st :
  valid_times l -> exists st', derive w l st = Normal st'.
Proof.
  intros V. unfold derive, generateConversationsFromMessages.
  destruct w as [w|]; [|simpl; eauto].
  destruct (truthy w); [|simpl; eauto].
  rewrite (build_map_valid l V). simpl. eauto.
Qed.

Lemma valid_times_perm l l' :
  Permutation l l' -> valid_times l -> valid_times l'.
Proof.
  unfold valid_times. rewrite !Forall_forall. intros P V m Hm.
  apply V. eapply Permutation_in; [symmetry|]; eauto.
Qed.

Lemma valid_times_append l m :
  valid_times l -> valid_time (timestamp m) = true ->
  valid_times (sort by_timestamp (l ++ [m])).
Proof.
  intros V Vm. apply (valid_times_perm (l ++ [m])).
  - symmetry. apply sort_perm.
  - apply Forall_app. split; [exact V | constructor; auto].
Qed.

Lemma on_message_normal w m st st' :
  on_message w m st = Normal st' -> messages st' = merge (messages st) m.
Proof.
  unfold on_message, merge.
  destruct (has_id (id m) (messages st)) eqn:H; intros E.
  - inversion E. reflexivity.
  - apply derive_messages in E. exact E.
Qed.

Lemma on_message_valid w m st :
  valid_times (messages st) -> valid_time (timestamp m) = true ->
  exists st', on_message w m st = Normal st'.
Proof.
  intros V Vm. unfold on_message, merge.
  destruct (has_id (id m) (messages st)); [eauto|].
  apply derive_valid. apply valid_times_append; auto.
Qed.

Lemma handleSend_submit_messages w uuid now st st' p :
  handleSend_submit w uuid now st = Normal (st', Some p) ->
  messages st' = sort by_timestamp (messages st ++ [localMessage p])%list /\
  id (localMessage p) = uuid /\ timestamp (localMessage p) = now /\
  status (localMessage p) = sending /\
  encrypted (localMessage p) = encryptionEnabled st.
Proof.
  unfold handleSend_submit. destruct w as [w|]; [|intros E; inversion E].
  destruct (negb (truthy (trim (newMessage st))) || negb (truthy w));
    [intros E; inversion E|].
  destruct (negb (truthy (trim (targetRecipient w st))));
    [intros E; inversion E|].
  intros E. apply and_then_normal in E as (st1 & D & E).
  inversion E; subst; clear E. apply derive_messages in D.
  rewrite D. simpl. auto.
Qed.





Lemma handleSend_resolved_messages p st :
  messages (handleSend_resolved p st)
  = map (fun msg => if String.eqb (id msg) (id (localMessage p))
                    then set_status sent msg else msg) (messages st).
Proof.
  unfold handleSend_resolved. destruct (shownRecipient p); reflexivity.
Qed.

Lemma mark_failed_nondecreasing l :
  nondecreasing l -> nondecreasing (mark_failed l).
Proof.
  unfold mark_failed. apply map_nondecreasing. intros m.
  destruct (option_map id (last_of l)); [|reflexivity].
  destruct (String.eqb (id m) s); reflexivity.
Qed.

Lemma step_nondecreasing w st e st' :
  ordered_load e -> nondecreasing (messages st) ->
  step w st e = Normal st' -> nondecreasing (messages st').
Proof.
  intros O S. destruct e as [l | m | uuid now | p | | s | s | ]; cbn [step];
    intros E; try (inversion E; subst; exact S).
  - inversion E; subst; clear E. unfold on_loaded.
    destruct (has_wallet w); [|exact S].
    destruct (derive w l _) as [st''|] eqn:D; [|exact O].
    apply derive_messages in D. rewrite D. exact O.
  - apply on_message_normal in E. rewrite E. unfold merge.
    destruct (has_id (id m) (messages st)); [exact S|].
    apply sort_nondecreasing.
  - apply and_then_normal in E as ([st1 o] & H & E).
    inversion E; subst; clear E. simpl. destruct o as [p|].
    + apply handleSend_submit_messages in H as (-> & _).
      apply sort_nondecreasing.
    + unfold handleSend_submit in H. destruct w as [w|].
      * destruct (negb (truthy (trim (newMessage st))) || negb (truthy w));
          [inversion H; subst; exact S|].
        destruct (negb (truthy (trim (targetRecipient w st))));
          [inversion H; subst; exact S|].
        apply and_then_normal in H as (? & _ & H). discriminate.
      * inversion H; subst; exact S.
  - inversion E; subst. rewrite handleSend_resolved_messages.
    apply map_nondecreasing; auto.
    intros m. destruct (String.eqb (id m) _); reflexivity.
  - inversion E; subst. apply mark_failed_nondecreasing. exact S.
Qed.

(** C7, as the page has it.  The load stores the list as the local store
    delivered it; provided every such list was in timestamp order, the list
    is non-decreasing by timestamp after any sequence of events. *)
Theorem ordered_loads_keep_list_sorted w st es st' :
  nondecreasing (messages st) -> Forall ordered_load es ->
  run w st es = Normal st' -> nondecreasing (messages st').
Proof.
  intros S F. revert st S. induction F as [|e es O F IH]; intros st S E;
    simpl in E.
  - inversion E; subst. exact S.
  - apply and_then_normal in E as (st1 & E1 & E).
    apply (IH st1); auto. eapply step_nondecreasing; eauto.
Qed.

Lemma ordered_loads_keep_list_sorted_witness :
  exists st',
    run me initial ordered_session = Normal st' /\
    map id (messages st') = ["m0"; "m1"; "m2"] /\
    nondecreasing (messages st').
Proof.
  destruct (run me initial ordered_session) as [st'|] eqn:E;
    [|vm_compute in E; discriminate].
  exists st'. split; [reflexivity|]. split.
  - vm_compute in E. inversion E. reflexivity.
  - apply (ordered_loads_keep_list_sorted me initial ordered_session st');
      auto.
    + constructor.
    + repeat constructor. simpl. lia.
Defined.

(** C7, as the claim words it, fails: a load that delivers the newer
    message first leaves the list in that order. *)
Lemma unordered_load_stays_unordered :
  exists st',
    run me initial unordered_load = Normal st' /\
    map timestamp (messages st') = [2000%Z; 1000%Z] /\
    ~ nondecreasing (messages st').
Proof.
  eexists. split; [reflexivity|]. split; [reflexivity|]. intros S.
  apply StronglySorted_inv in S as [_ F].
  inversion F as [|? ? H _]. simpl in H. lia.
Qed.

(** C8 is not what the [catch] block does.  It marks the message that is
    last in the list; here the peer's message dated 1500 arrived during the
    send, so that one turns [failed] and the message of the rejected send
    stays [sending]. *)
Theorem rejected_send_marks_last_message :
  and_then (run me initial failed_send)
           (fun st => Normal (map (fun m => (id m, status m, encrypted m))
                                  (messages st)))
  = Normal [("u1", sending, false); ("m9", failed, true)]
  /\ and_then (run me initial failed_send_skew)
              (fun st => Normal (map (fun m => (id m, status m, encrypted m))
                                     (messages st)))
     = Normal [("u1", sending, false); ("m9", failed, true)].
Proof. split; reflexivity. Qed.

(** With no newer message in the list the rejected send is the one marked. *)
Example rejected_send_alone :
  and_then (run me initial failed_send_alone)
           (fun st => Normal (map (fun m => (id m, receiver m, content m,
                                             status m, encrypted m))
                                  (messages st)))
  = Normal [("u1", "0xbb", "hello", failed, false)].
Proof. reflexivity. Qed.

Lemma last_of_snoc l m : last_of (l ++ [m]) = Some m.
Proof.
  induction l as [|x l IH]; simpl; [reflexivity|].
  destruct (l ++ [m])%list eqn:E; [destruct l; discriminate | exact IH].
Qed.

(** X21.  When no message of the list is dated after the send, and nothing
    arrives before the rejection, the message of the send is last and is
    the one marked. *)
Lemma rejected_send_marks_own_message w uuid now st st' p :
  handleSend_submit w uuid now st = Normal (st', Some p) ->
  (forall m, In m (messages st) -> (timestamp m <= now)%Z) ->
  exists l',
    messages (handleSend_rejected st')
    = (l' ++ [set_status failed (localMessage p)])%list.
Proof.
  intros H B. apply handleSend_submit_messages in H as (E & _ & T & _).
  destruct (sort_keeps_last by_timestamp (messages st) (localMessage p))
    as [l' S].
  { intros m Hm. unfold by_timestamp. specialize (B m Hm). lia. }
  simpl. rewrite E, S. unfold mark_failed. rewrite last_of_snoc. simpl.
  rewrite map_app. simpl. rewrite String.eqb_refl. eauto.
Qed.

(** What does hold of the [catch] block: no message leaves the list and no
    [encrypted] flag changes. *)
Lemma mark_failed_keeps l :
  map id (mark_failed l) = map id l /\
  map encrypted (mark_failed l) = map encrypted l.
Proof.
  unfold mark_failed. rewrite !map_map. split; apply map_ext; intros m;
    destruct (option_map id (last_of l)); try reflexivity;
    destruct (String.eqb (id m) s); reflexivity.
Qed.

(** *** Conversation derivation *)






Lemma map_get_In k v cm : map_get k cm = Some v -> In (k, v) cm.
Proof.
  induction cm as [|[k0 v0] cm IH]; simpl; [discriminate|].
  destruct (String.eqb k k0) eqn:E; auto.
  apply String.eqb_eq in E. intros H. inversion H; subst. auto.
Qed.

Lemma map_get_None k cm : map_get k cm = None -> ~ In k (map fst cm).
Proof.
  induction cm as [|[k0 v0] cm IH]; simpl; auto.
  destruct (String.eqb k k0) eqn:E; [discriminate|].
  apply String.eqb_neq in E. intros H [K | K]; [congruence | exact (IH H K)].
Qed.


Lemma map_mutate_keys k v cm : map fst (map_mutate k v cm) = map fst cm.
Proof.
  induction cm as [|[k0 v0] cm IH]; simpl; auto.
  destruct (String.eqb k k0); simpl; congruence.
Qed.

Lemma map_mutate_In k v cm k0 v0 :
  In (k0, v0) (map_mutate k v cm) -> (k0 = k /\ v0 = v) \/ In (k0, v0) cm.
Proof.
  induction cm as [|[k1 v1] cm IH]; simpl; auto.
  destruct (String.eqb k k1) eqn:E; simpl.
  - apply String.eqb_eq in E. subst k1.
    intros [H | H]; [inversion H; auto | auto].
  - intros [H | H]; auto. destruct (IH H); auto.
Qed.

(** Keys are stored once, and each summary carries its key as [id]. *)
Lemma built_keyed l :
  NoDup (map fst (built l)) /\
  forall k v, In (k, v) (built l) -> conv_id v = k.
Proof.
  induction l as [|x l [N K]] using rev_ind.
  - split; [constructor | intros k v []].
  - rewrite built_snoc. unfold visited.
    destruct (map_get (conversationId x) (built l)) as [conv|] eqn:G.
    + destruct (timestamp x >? last_message_time conv)%Z; [|auto].
      split; [rewrite map_mutate_keys; exact N|].
      intros k v H. apply map_mutate_In in H as [[-> ->] | H]; auto.
      simpl. apply K. apply map_get_In. exact G.
    + split.
      * rewrite map_app. simpl.
        apply NoDup_app; [exact N | repeat constructor; intros [] |].
        intros k Hk [<- | []]. apply (map_get_None _ _ G). exact Hk.
      * intros k v H. apply in_app_or in H as [H | [H | []]]; auto.
        inversion H; subst. reflexivity.
Qed.












End ClientFacts.

(** ** More on the access policies *)

Module PolicyExtra.
Import Sql Auth Db Profiles PolicyFacts.

Lemma ident_is_iff p x :
  ident_is p x = true <-> get_user_wallet_address p = Some x.
Proof.
  unfold ident_is. destruct (get_user_wallet_address p) as [i|].
  - rewrite String.eqb_eq. split; congruence.
  - split; discriminate.
Qed.

Lemma can_insert_messages p r m :
  can_insert (messages_policies p) r m
  = role_eqb r authenticated && ident_is p (sender m).
Proof.
  destruct r; unfold can_insert, rls_new, check_expr; simpl;
    rewrite ?orb_false_r; reflexivity.
Qed.

Lemma can_update_profiles p r old new :
  can_update (profiles_policies p) r old new
  = (role_eqb r authenticated && ident_is p (address old))
    && (role_eqb r authenticated && ident_is p (address new)).
Proof.
  destruct r; unfold can_update, rls_old, rls_new, using_expr, check_expr;
    simpl; rewrite ?orb_false_r; reflexivity.
Qed.

Lemma can_update_messages p r old new :
  can_update (messages_policies p) r old new
  = (role_eqb r authenticated && ident_is p (sender old))
    && (role_eqb r authenticated && ident_is p (sender new)).
Proof.
  destruct r; unfold can_update, rls_old, rls_new, using_expr, check_expr;
    simpl; rewrite ?orb_false_r; reflexivity.
Qed.

Lemma can_update_conversations p r old new :
  can_update (conversations_policies p) r old new
  = (role_eqb r authenticated && ident_in p (participants old))
    && (role_eqb r authenticated && ident_in p (participants new)).
Proof.
  destruct r; unfold can_update, rls_old, rls_new, using_expr, check_expr;
    simpl; rewrite ?orb_false_r; reflexivity.
Qed.

(** X6.  An update the policies accept cannot move a row to another owner: a
    profile keeps its address, which is the caller's identity, a message
    keeps its sender, and the caller stays among the participants of a
    conversation. *)
Theorem accepted_update_keeps_owner p r :
  (forall old new,
      can_update (profiles_policies p) r old new = true ->
      address new = address old /\
      get_user_wallet_address p = Some (address old))
  /\ (forall old new,
        can_update (messages_policies p) r old new = true ->
        sender new = sender old /\
        get_user_wallet_address p = Some (sender old))
  /\ (forall old new,
        can_update (conversations_policies p) r old new = true ->
        ident_in p (participants old) = true /\
        ident_in p (participants new) = true).
Proof.
  split; [|split]; intros old new H.
  - rewrite can_update_profiles in H.
    apply andb_prop in H as [H1 H2].
    apply andb_prop in H1 as [_ H1]. apply andb_prop in H2 as [_ H2].
    apply ident_is_iff in H1, H2. split; congruence.
  - rewrite can_update_messages in H.
    apply andb_prop in H as [H1 H2].
    apply andb_prop in H1 as [_ H1]. apply andb_prop in H2 as [_ H2].
    apply ident_is_iff in H1, H2. split; congruence.
  - rewrite can_update_conversations in H.
    apply andb_prop in H as [H1 H2].
    apply andb_prop in H1 as [_ H1]. apply andb_prop in H2 as [_ H2]. auto.
Qed.

(** X7.  Nothing the migration declares lets a caller delete a profile, a
    conversation, a message or an attachment row, or update an attachment
    row; and the role [anon] is let through by no policy at all. *)
Theorem no_policy_no_access p d r :
  (forall x, can_delete (profiles_policies p) r x = false)
  /\ (forall x, can_delete (conversations_policies p) r x = false)
  /\ (forall x, can_delete (messages_policies p) r x = false)
  /\ (forall x, can_delete (attachments_policies r p d) r x = false)
  /\ (forall x y, can_update (attachments_policies r p d) r x y = false)
  /\ (forall c x,
        rls_old (profiles_policies p) c anon x = false /\
        rls_new (profiles_policies p) c anon x = false)
  /\ (forall c x,
        rls_old (conversations_policies p) c anon x = false /\
        rls_new (conversations_policies p) c anon x = false)
  /\ (forall c x,
        rls_old (messages_policies p) c anon x = false /\
        rls_new (messages_policies p) c anon x = false)
  /\ (forall c x,
        rls_old (attachments_policies anon p d) c anon x = false /\
        rls_new (attachments_policies anon p d) c anon x = false)
  /\ (forall c x,
        rls_old attachments_bucket_policies c anon x = false /\
        rls_new attachments_bucket_policies c anon x = false).
Proof.
  repeat split; intros;
    try (destruct r; reflexivity);
    try (destruct c; reflexivity).
Qed.

(** X8.  Whoever may insert a row may read it back: the insert check of
    conversations, messages and attachments implies the select policy of
    the same table. *)
Theorem insert_implies_select p d r :
  (forall c, can_insert (conversations_policies p) r c = true ->
             can_select (conversations_policies p) r c = true)
  /\ (forall m, can_insert (messages_policies p) r m = true ->
                can_select (messages_policies p) r m = true)
  /\ (forall a, can_insert (attachments_policies r p d) r a = true ->
                can_select (attachments_policies r p d) r a = true)
  /\ (forall x, can_insert (profiles_policies p) r x = true ->
                can_select (profiles_policies p) r x = true).
Proof.
  repeat split; intros x H; destruct r;
    unfold can_insert, can_select, rls_new, rls_old, check_expr, using_expr
      in *; simpl in *; rewrite ?orb_false_r in *; try discriminate; auto.
  rewrite H. reflexivity.
Qed.

End PolicyExtra.

(** ** More on the triggers *)

Module MaterializerExtra.
Import Sql Auth Db Materializer Integrity Scenario.
Import PolicyFacts PolicyExtra MaterializerFacts.

Lemma before_trigger_incl pick g cs row c :
  In c cs -> In c (fst (update_conversation_on_message pick g cs row)).
Proof.
  unfold update_conversation_on_message.
  destruct (conversation_id row); simpl; auto.
  destruct (option_map conv_id _); simpl; auto.
  intros H. apply in_or_app. auto.
Qed.

(** X1.  The insert is accepted exactly for an authenticated caller whose
    identity is the row's sender; a refused insert leaves the database as
    it was, the conversation the before-trigger may have created
    included. *)
Theorem message_insert_needs_own_sender pick g r p d row :
  (r = authenticated /\ get_user_wallet_address p = Some (sender row) ->
   exists d' nw, insert_message pick g r p d row = Some (d', nw))
  /\ (~ (r = authenticated /\ get_user_wallet_address p = Some (sender row)) ->
      insert_message pick g r p d row = None /\
      exec d (InsertMessage pick g r p row) = d).
Proof.
  pose proof (before_trigger_keeps pick g (conversations d) row) as K.
  simpl in K. destruct K as (Ks & _).
  assert (E : forall b,
             can_insert (messages_policies p) r
               (snd (update_conversation_on_message pick g (conversations d) row))
             = b ->
             insert_message pick g r p d row = None <-> b = false).
  { intros b Hb. unfold insert_message.
    destruct (update_conversation_on_message pick g (conversations d) row)
      as [cs nw]. cbn [snd] in Hb. rewrite Hb.
    destruct b; split; intros; congruence. }
  rewrite can_insert_messages, Ks in E.
  split.
  - intros [-> Hi]. apply ident_is_iff in Hi.
    destruct (insert_message pick g authenticated p d row) as [[d' nw]|] eqn:I;
      eauto.
    exfalso. pose proof (proj1 (E _ eq_refl) eq_refl) as X.
    simpl in X. congruence.
  - intros N.
    assert (I : insert_message pick g r p d row = None).
    { apply (E _ eq_refl). apply andb_false_iff.
      destruct (role_eqb r authenticated) eqn:R; auto. right.
      apply role_eqb_iff in R.
      destruct (ident_is p (sender row)) eqn:Hi; auto.
      apply ident_is_iff in Hi. exfalso. auto. }
    split; auto. simpl. rewrite I. reflexivity.
Qed.

Lemma after_trigger_unbound cs nw :
  (forall c, In c cs -> bound_to nw c = false) ->
  update_conversation_last_message cs nw = cs.
Proof.
  intros H. unfold update_conversation_last_message.
  induction cs as [|c cs IH]; simpl; auto.
  rewrite (H c) by (left; reflexivity). f_equal. apply IH.
  intros c' Hc'. apply H. right. exact Hc'.
Qed.

(** X2.  The first message between two identities: when no row matches the
    lookup and the generated id is new, the insert appends one row, with
    the participants [[sender, receiver]] in that order, the message's
    content and time (also as [updated_at], whatever the column default),
    [is_group] false, and binds the message to it. *)
Theorem first_message_creates_conversation pick g r p d row d' nw :
  limit1 pick -> conversation_id row = None ->
  (forall c, In c (conversations d) -> pair_query row c = false) ->
  (forall c, In c (conversations d) -> conv_id c <> gen_id g) ->
  insert_message pick g r p d row = Some (d', nw) ->
  conversations d' =
    (conversations d ++
     [{| conv_id := gen_id g;
         participants := [sender row; receiver row];
         last_message := content row;
         last_message_time := created_at row;
         updated_at := created_at row;
         is_group := false;
         group_name := "";
         group_avatar := "" |}])%list
  /\ conversation_id nw = Some (gen_id g)
  /\ messages d' = (messages d ++ [nw])%list.
Proof.
  intros L N Hq Hid H.
  apply insert_message_inv in H as (cs & Hb & Hc & Hm & _).
  destruct (before_trigger_cases pick g (conversations d) row L N)
    as [[_ E] | (c & Hin & Q & _)].
  2:{ rewrite (Hq c Hin) in Q. discriminate. }
  rewrite E in Hb. inversion Hb; subst cs nw; clear Hb.
  split; [|split; auto].
  rewrite Hc. unfold update_conversation_last_message. rewrite map_app.
  f_equal.
  - apply after_trigger_unbound. intros c Hin. unfold bound_to. simpl.
    apply N.eqb_neq. auto.
  - simpl. unfold bound_to. simpl. rewrite N.eqb_refl. reflexivity.
Qed.

Lemma first_message_creates_conversation_witness :
  exists d' nw,
    insert_message first_row gen1 authenticated alice empty_db a_to_b
      = Some (d', nw) /\
    map participants (conversations d') = [["0xaa"; "0xbb"]] /\
    map updated_at (conversations d') = [created_at a_to_b] /\
    conversation_id nw = Some 101%N.
Proof.
  destruct (insert_message first_row gen1 authenticated alice empty_db a_to_b)
    as [[d' nw]|] eqn:I; [|vm_compute in I; discriminate].
  exists d', nw. split; [reflexivity|].
  destruct (first_message_creates_conversation first_row gen1 authenticated
              alice empty_db a_to_b d' nw limit1_first_row eq_refl
              (fun c (H : In c []) => match H with end)
              (fun c (H : In c []) => match H with end) I)
    as (Hc & Hn & _).
  rewrite Hc, Hn. repeat split; reflexivity.
Defined.

(** X3.  How the conversations table grows: by one row when the message came
    without a conversation id and no row matched the lookup (group rows
    count as matches too), and not at all otherwise. *)
Theorem conversations_grow_by_lookup pick g r p d row d' nw :
  limit1 pick ->
  insert_message pick g r p d row = Some (d', nw) ->
  List.length (conversations d') =
  List.length (conversations d) +
  match conversation_id row with
  | Some _ => 0
  | None => if existsb (pair_query row) (conversations d) then 0 else 1
  end.
Proof.
  intros L H. apply insert_message_inv in H as (cs & Hb & Hc & _ & _).
  rewrite Hc. unfold update_conversation_last_message. rewrite length_map.
  destruct (conversation_id row) as [ci|] eqn:N.
  - unfold update_conversation_on_message in Hb. rewrite N in Hb.
    inversion Hb; subst. lia.
  - destruct (before_trigger_cases pick g (conversations d) row L N)
      as [[F E] | (c & Hin & Q & E)];
      rewrite E in Hb; inversion Hb; subst cs nw; clear Hb.
    + destruct (existsb (pair_query row) (conversations d)) eqn:X.
      * exfalso. apply existsb_exists in X as (c & Hin & Q).
        assert (Hf : In c (filter (pair_query row) (conversations d)))
          by (apply filter_In; auto).
        rewrite F in Hf. exact Hf.
      * rewrite length_app. reflexivity.
    + assert (X : existsb (pair_query row) (conversations d) = true)
        by (apply existsb_exists; eauto).
      rewrite X. lia.
Qed.

Lemma conversations_grow_by_lookup_witness :
  exists d2 n2,
    insert_message first_row gen2 authenticated bob after_a_to_b b_to_a
      = Some (d2, n2) /\
    List.length (conversations after_a_to_b) = 1 /\
    List.length (conversations d2) = 1.
Proof.
  destruct (insert_message first_row gen2 authenticated bob after_a_to_b b_to_a)
    as [[d2 n2]|] eqn:I; [|vm_compute in I; discriminate].
  exists d2, n2. split; [reflexivity|]. split; [reflexivity|].
  rewrite (conversations_grow_by_lookup first_row gen2 authenticated bob
             after_a_to_b b_to_a d2 n2 limit1_first_row I).
  reflexivity.
Defined.

Lemma after_trigger_same_thread cs nw :
  Forall2 (same_thread nw) cs (update_conversation_last_message cs nw).
Proof.
  unfold update_conversation_last_message.
  induction cs as [|c cs IH]; simpl; constructor; auto.
  unfold same_thread, bound_to.
  destruct (conversation_id nw) as [ci|]; [|repeat split; auto].
  destruct (N.eqb_spec (conv_id c) ci) as [E | E]; simpl;
    repeat split; auto.
  intros H. exfalso. apply H. congruence.
Qed.

(** X4.  What a message insert leaves alone: the rows that were there stay in
    place, in order, with their id, participants and group columns; only
    rows with the id the stored message is bound to change at all; and at
    most one row is appended. *)
Theorem insert_touches_only_bound_rows pick g r p d row d' nw :
  insert_message pick g r p d row = Some (d', nw) ->
  exists kept added,
    conversations d' = (kept ++ added)%list /\
    Forall2 (same_thread nw) (conversations d) kept /\
    List.length added <= 1.
Proof.
  intros H. apply insert_message_inv in H as (cs & Hb & Hc & _ & _).
  unfold update_conversation_on_message in Hb.
  destruct (conversation_id row) as [ci|].
  - inversion Hb; subst cs nw.
    exists (conversations d'), []. rewrite app_nil_r. split; auto.
    split; [|simpl; lia]. rewrite Hc. apply after_trigger_same_thread.
  - destruct (option_map conv_id _) as [ci|];
      inversion Hb; subst cs nw; clear Hb.
    + exists (conversations d'), []. rewrite app_nil_r. split; auto.
      split; [|simpl; lia]. rewrite Hc. apply after_trigger_same_thread.
    + rewrite Hc. unfold update_conversation_last_message. rewrite map_app.
      eexists _, _. split; [reflexivity|].
      split; [apply after_trigger_same_thread | simpl; lia].
Qed.

Lemma insert_touches_only_bound_rows_witness :
  exists d2 n2 kept added,
    insert_message first_row gen2 authenticated bob after_a_to_b b_to_a
      = Some (d2, n2) /\
    conversations d2 = (kept ++ added)%list /\
    Forall2 (same_thread n2) (conversations after_a_to_b) kept /\
    List.length added <= 1.
Proof.
  destruct (insert_message first_row gen2 authenticated bob after_a_to_b b_to_a)
    as [[d2 n2]|] eqn:I; [|vm_compute in I; discriminate].
  destruct (insert_touches_only_bound_rows first_row gen2 authenticated bob
              after_a_to_b b_to_a d2 n2 I) as (kept & added & H).
  exists d2, n2, kept, added. split; [reflexivity | exact H].
Defined.

Lemma well_bound_step d s :
  well_bound d -> unbound_insert s -> well_bound (exec d s).
Proof.
  intros W U. destruct s as [pick g r p row | r p row]; simpl.
  - destruct U as [L N].
    destruct (insert_message pick g r p d row) as [[d' nw]|] eqn:I; [|exact W].
    apply insert_message_inv in I as (cs & Hb & Hc & Hm & _).
    assert (Himg : forall c, In c cs ->
              exists c', In c' (conversations d') /\
                         conv_id c' = conv_id c /\
                         participants c' = participants c).
    { intros c Hin. rewrite Hc. apply after_trigger_image. exact Hin. }
    intros m Hin. rewrite Hm in Hin.
    apply in_app_or in Hin as [Hin | [<- | []]].
    + destruct (W m Hin) as (c & Hc0 & Hid & Hs & Hr).
      destruct (Himg c) as (c' & Hc' & Ei & Ep).
      { pose proof (before_trigger_incl pick g (conversations d) row c Hc0)
          as X. rewrite Hb in X. exact X. }
      exists c'. rewrite Ei, Ep. auto.
    + destruct (before_trigger_cases pick g (conversations d) row L N)
        as [[_ E] | (c & Hc0 & Q & E)];
        rewrite E in Hb; inversion Hb; subst cs nw; clear Hb.
      * destruct (Himg (new_conversation g row)) as (c' & Hc' & Ei & Ep).
        { apply in_or_app. right. left. reflexivity. }
        exists c'. rewrite Ei, Ep. simpl. repeat split; auto.
      * destruct (Himg c Hc0) as (c' & Hc' & Ei & Ep).
        apply pair_query_iff in Q as (Hs & Hr & _).
        exists c'. rewrite Ei, Ep. simpl. repeat split; auto.
  - unfold insert_conversation.
    destruct (can_insert (conversations_policies p) r row); [|exact W].
    intros m Hin. destruct (W m Hin) as (c & Hc0 & H).
    exists c. split; auto. simpl. apply in_or_app. auto.
Qed.

(** X5.  Referential integrity of what the triggers build.  As long as message
    rows come without a conversation id, every stored message is bound to a
    conversation row that exists and that has the message's sender and
    receiver among its participants; direct conversation inserts do not
    disturb this. *)
Theorem stored_messages_stay_bound d ss :
  well_bound d -> Forall unbound_insert ss -> well_bound (run d ss).
Proof.
  intros W F. revert d W. induction F as [|s ss U F IH]; intros d W; simpl.
  - exact W.
  - apply IH. apply well_bound_step; auto.
Qed.

Lemma stored_messages_stay_bound_witness :
  List.length (messages (run empty_db exchange)) = 2 /\
  well_bound (run empty_db exchange).
Proof.
  split; [reflexivity|].
  apply (stored_messages_stay_bound empty_db exchange).
  - intros m [].
  - repeat constructor; apply limit1_first_row.
Defined.

End MaterializerExtra.

(** ** More on the reconciliation engine *)

Module ClientExtra.
Import Js Client View JsFacts ClientFacts ClientScenario.

Lemma has_id_false i l : has_id i l = false -> ~ In i (map id l).
Proof.
  intros H Hin. apply in_map_iff in Hin as (m & E & Hm).
  assert (X : has_id i l = true) by (apply has_id_iff; eauto).
  congruence.
Qed.

Lemma sort_ids l : Permutation (map id (sort by_timestamp l)) (map id l).
Proof. apply Permutation_map. apply sort_perm. Qed.

Lemma append_ids_unique l m :
  NoDup (map id l) -> has_id (id m) l = false ->
  NoDup (map id (sort by_timestamp (l ++ [m]))).
Proof.
  intros N H. apply (Permutation_NoDup (l := id m :: map id l)).
  - symmetry. rewrite sort_ids, map_app. simpl.
    symmetry. apply Permutation_cons_append.
  - constructor; [apply has_id_false; exact H | exact N].
Qed.

Lemma handleSend_submit_none w uuid now st st' :
  handleSend_submit w uuid now st = Normal (st', None) -> st' = st.
Proof.
  unfold handleSend_submit. destruct w as [w|]; [|congruence].
  destruct (negb (truthy (trim (newMessage st))) || negb (truthy w));
    [congruence|].
  destruct (negb (truthy (trim (targetRecipient w st)))); [congruence|].
  intros E. apply and_then_normal in E as (? & _ & E). discriminate.
Qed.

Lemma step_ids_unique w st e st' :
  NoDup (map id (messages st)) -> admissible st e ->
  step w st e = Normal st' -> NoDup (map id (messages st')).
Proof.
  intros N A. destruct e as [l | m | uuid now | p | | s | s | ]; cbn [step];
    intros E; try (inversion E; subst; exact N).
  - inversion E; subst; clear E. unfold on_loaded.
    destruct (has_wallet w); [|exact N].
    destruct (derive w l _) as [st''|] eqn:D; [|exact A].
    apply derive_messages in D. rewrite D. exact A.
  - apply on_message_normal in E. rewrite E. unfold merge.
    destruct (has_id (id m) (messages st)) eqn:H; [exact N|].
    apply append_ids_unique; auto.
  - apply and_then_normal in E as ([st1 o] & H & E).
    inversion E; subst; clear E. simpl. destruct o as [p|].
    + apply handleSend_submit_messages in H as (-> & <- & _).
      apply append_ids_unique; auto.
    + apply handleSend_submit_none in H. subst. exact N.
  - inversion E; subst. rewrite handleSend_resolved_messages, map_map.
    erewrite map_ext; [exact N|]. intros m. simpl.
    destruct (String.eqb (id m) _); reflexivity.
  - inversion E; subst. simpl.
    destruct (mark_failed_keeps (messages st)) as [-> _]. exact N.
Qed.

(** X9.  Deduplication as an invariant.  When no load delivers an id twice and
    every send draws an id that is not in the list, no id occurs twice in
    the list, whatever the transport delivers and however often. *)
Theorem ids_stay_unique w st es st' :
  NoDup (map id (messages st)) -> admissible_run w st es ->
  run w st es = Normal st' -> NoDup (map id (messages st')).
Proof.
  revert st. induction es as [|e es IH]; intros st N A E; simpl in E.
  - inversion E; subst. exact N.
  - destruct A as [A R]. apply and_then_normal in E as (st1 & E1 & E).
    rewrite E1 in R. apply (IH st1); auto.
    eapply step_ids_unique; eauto.
Qed.

Lemma ids_stay_unique_witness :
  let es := [ Loaded [peer_message "m1" 1000 "first"];
              Received (peer_message "m1" 1000 "first");
              Received (peer_message "m2" 2000 "second");
              Typed "hello"; RecipientTyped "0xBB"; Submitted "u1" 1500;
              Received (peer_message "m2" 2000 "second") ] in
  exists st',
    run me initial es = Normal st' /\
    map id (messages st') = ["m1"; "u1"; "m2"] /\
    NoDup (map id (messages st')).
Proof.
  intros es.
  destruct (run me initial es) as [st'|] eqn:E;
    [|vm_compute in E; discriminate].
  exists st'. split; [reflexivity|]. split.
  - vm_compute in E. inversion E. reflexivity.
  - apply (ids_stay_unique me initial es st'); auto; [constructor|].
    simpl. repeat split; auto. repeat constructor. intros [].
Defined.

Lemma has_id_perm i l l' : Permutation l l' -> has_id i l = has_id i l'.
Proof.
  intros P. destruct (has_id i l) eqn:E, (has_id i l') eqn:E'; auto.
  - apply has_id_iff in E as (m & Hm & Hi).
    assert (X : has_id i l' = true).
    { apply has_id_iff. exists m. split; auto.
      eapply Permutation_in; eauto. }
    congruence.
  - apply has_id_iff in E' as (m & Hm & Hi).
    assert (X : has_id i l = true).
    { apply has_id_iff. exists m. split; auto.
      eapply Permutation_in; [symmetry|]; eauto. }
    congruence.
Qed.

(** Two lists in timestamp order with the same messages and no timestamp
    twice are the same list. *)
Lemma sorted_unique l1 l2 :
  nondecreasing l1 -> nondecreasing l2 -> Permutation l1 l2 ->
  NoDup (map timestamp l1) -> l1 = l2.
Proof.
  revert l2. induction l1 as [|a l1 IH]; intros l2 S1 S2 P N.
  - apply Permutation_nil in P. auto.
  - destruct l2 as [|b l2].
    { symmetry in P. apply Permutation_nil in P. discriminate. }
    apply StronglySorted_inv in S1 as [S1 F1].
    apply StronglySorted_inv in S2 as [S2 F2].
    inversion N as [|? ? Na N']; subst.
    assert (E : a = b).
    { assert (Ha : In a (b :: l2))
        by (eapply Permutation_in; [exact P | left; reflexivity]).
      assert (Hb : In b (a :: l1))
        by (eapply Permutation_in; [symmetry; exact P | left; reflexivity]).
      destruct Ha as [Ha | Ha]; auto. destruct Hb as [Hb | Hb]; auto.
      rewrite Forall_forall in F1, F2.
      specialize (F1 b Hb). specialize (F2 a Ha). exfalso. apply Na.
      replace (timestamp a) with (timestamp b) by lia.
      apply in_map. exact Hb. }
    subst b. f_equal. apply IH; auto.
    eapply Permutation_cons_inv; eauto.
Qed.

Lemma merge_fresh l m :
  has_id (id m) l = false -> Permutation (merge l m) (m :: l).
Proof.
  intros H. unfold merge. rewrite H. rewrite sort_perm.
  symmetry. apply Permutation_cons_append.
Qed.

Lemma merge_known l m : has_id (id m) l = true -> merge l m = l.
Proof. intros H. unfold merge. rewrite H. reflexivity. Qed.

Lemma merge_nondecreasing l m :
  nondecreasing l -> nondecreasing (merge l m).
Proof.
  intros S. unfold merge. destruct (has_id (id m) l); auto.
  apply sort_nondecreasing.
Qed.

Lemma has_id_cons i m l :
  has_id i (m :: l) = String.eqb (id m) i || has_id i l.
Proof. reflexivity. Qed.

Lemma merge_swap_perm l a b :
  id a <> id b ->
  Permutation (merge (merge l a) b) (merge (merge l b) a).
Proof.
  intros D.
  assert (Dab : String.eqb (id a) (id b) = false) by (apply String.eqb_neq; auto).
  assert (Dba : String.eqb (id b) (id a) = false)
    by (apply String.eqb_neq; auto).
  destruct (has_id (id a) l) eqn:Ha, (has_id (id b) l) eqn:Hb.
  - rewrite (merge_known l a Ha), (merge_known l b Hb), (merge_known l a Ha).
    reflexivity.
  - rewrite (merge_known l a Ha).
    rewrite (merge_known (merge l b) a); [reflexivity|].
    rewrite (has_id_perm _ _ _ (merge_fresh l b Hb)), has_id_cons, Ha.
    apply orb_true_r.
  - rewrite (merge_known l b Hb).
    rewrite (merge_known (merge l a) b); [reflexivity|].
    rewrite (has_id_perm _ _ _ (merge_fresh l a Ha)), has_id_cons, Hb.
    apply orb_true_r.
  - assert (Hb' : has_id (id b) (merge l a) = false).
    { rewrite (has_id_perm _ _ _ (merge_fresh l a Ha)), has_id_cons, Hb, Dab.
      reflexivity. }
    assert (Ha' : has_id (id a) (merge l b) = false).
    { rewrite (has_id_perm _ _ _ (merge_fresh l b Hb)), has_id_cons, Ha, Dba.
      reflexivity. }
    rewrite (merge_fresh _ b Hb'), (merge_fresh _ a Ha').
    rewrite (merge_fresh l a Ha), (merge_fresh l b Hb). apply perm_swap.
Qed.

(** X10.  The order of arrival does not matter.  Two messages with different ids
    delivered in either order leave the same messages in the list, and the
    very same list when no two of them carry the same timestamp. *)
Theorem merge_order_irrelevant l a b :
  id a <> id b ->
  Permutation (merge (merge l a) b) (merge (merge l b) a)
  /\ (NoDup (map timestamp (merge (merge l a) b)) ->
      merge (merge l a) b = merge (merge l b) a).
Proof.
  intros D. split; [apply merge_swap_perm; exact D|].
  intros N.
  assert (Dab : String.eqb (id a) (id b) = false) by (apply String.eqb_neq; auto).
  assert (Dba : String.eqb (id b) (id a) = false)
    by (apply String.eqb_neq; auto).
  destruct (has_id (id a) l) eqn:Ha, (has_id (id b) l) eqn:Hb.
  - rewrite (merge_known l a Ha), (merge_known l b Hb), (merge_known l a Ha).
    reflexivity.
  - rewrite (merge_known l a Ha).
    rewrite (merge_known (merge l b) a); [reflexivity|].
    rewrite (has_id_perm _ _ _ (merge_fresh l b Hb)), has_id_cons, Ha.
    apply orb_true_r.
  - rewrite (merge_known l b Hb).
    rewrite (merge_known (merge l a) b); [reflexivity|].
    rewrite (has_id_perm _ _ _ (merge_fresh l a Ha)), has_id_cons, Hb.
    apply orb_true_r.
  - assert (Hb' : has_id (id b) (merge l a) = false).
    { rewrite (has_id_perm _ _ _ (merge_fresh l a Ha)), has_id_cons, Hb, Dab.
      reflexivity. }
    assert (Ha' : has_id (id a) (merge l b) = false).
    { rewrite (has_id_perm _ _ _ (merge_fresh l b Hb)), has_id_cons, Ha, Dba.
      reflexivity. }
    apply sorted_unique; auto.
    + unfold merge at 1. rewrite Hb'. apply sort_nondecreasing.
    + unfold merge at 1. rewrite Ha'. apply sort_nondecreasing.
    + apply merge_swap_perm. exact D.
Qed.

Lemma merge_order_irrelevant_witness :
  let l := [peer_message "m1" 1000 "first"] in
  let a := peer_message "m3" 3000 "third" in
  let b := peer_message "m2" 2000 "second" in
  map id (merge (merge l a) b) = ["m1"; "m2"; "m3"] /\
  merge (merge l a) b = merge (merge l b) a.
Proof.
  split; [reflexivity|].
  apply merge_order_irrelevant.
  - discriminate.
  - simpl. repeat constructor; simpl; intuition discriminate.
Defined.

Lemma merge_keeps l x m : In m l -> In m (merge l x).
Proof.
  intros H. unfold merge. destruct (has_id (id x) l); auto.
  apply (Permutation_in _ (Permutation_sym (sort_perm by_timestamp _))).
  apply in_or_app. auto.
Qed.

Lemma arrivals_keep w arrivals st st' m :
  run w st (map Received arrivals) = Normal st' ->
  In m (messages st) -> In m (messages st').
Proof.
  revert st. induction arrivals as [|x xs IH]; intros st E H; simpl in E.
  - inversion E; subst. exact H.
  - apply and_then_normal in E as (st1 & E1 & E).
    apply (IH st1); auto. apply on_message_normal in E1. rewrite E1.
    apply merge_keeps. exact H.
Qed.

Lemma merge_valid l m :
  valid_times l -> valid_time (timestamp m) = true -> valid_times (merge l m).
Proof.
  intros V Vm. unfold merge. destruct (has_id (id m) l); auto.
  apply valid_times_append; auto.
Qed.

Lemma arrivals_complete w arrivals st :
  valid_times (messages st) -> valid_times arrivals ->
  exists st', run w st (map Received arrivals) = Normal st'.
Proof.
  revert st. induction arrivals as [|x xs IH]; intros st V Va; simpl.
  - eauto.
  - inversion Va as [|? ? Vx Vxs]; subst.
    destruct (on_message_valid w x st V Vx) as [st1 E1]. rewrite E1. simpl.
    apply IH; auto. apply on_message_normal in E1. rewrite E1.
    apply merge_valid; auto.
Qed.

(** X11.  The success path of a send.  Whatever the transport delivers while the
    send is under way, if no update throws, once the send resolves the
    message of that send is in the list with status [sent]; the messages
    with another id are as they were, the list has not changed length, and
    the input line is cleared.  No update throws when the dates in the
    list and of the deliveries are valid. *)
Theorem resolved_send_marks_own_message w uuid now st st1 p arrivals :
  handleSend_submit w uuid now st = Normal (st1, Some p) ->
  (forall st2,
      run w st1 (map Received arrivals) = Normal st2 ->
      let st3 := handleSend_resolved p st2 in
      In (set_status sent (localMessage p)) (messages st3)
      /\ (forall m, In m (messages st2) -> id m <> uuid -> In m (messages st3))
      /\ List.length (messages st3) = List.length (messages st2)
      /\ newMessage st3 = "" /\ loading st3 = false)
  /\ (valid_times (messages st) -> valid_time now = true ->
      valid_times arrivals ->
      exists st2, run w st1 (map Received arrivals) = Normal st2).
Proof.
  intros H.
  apply handleSend_submit_messages in H as (E & Hid & Ht & _).
  split.
  - intros st2 R st3. subst st3.
    rewrite handleSend_resolved_messages.
    split; [|split; [|split; [|split]]].
    + assert (Hin : In (localMessage p) (messages st2)).
      { apply (arrivals_keep _ _ _ _ _ R). rewrite E.
        apply (Permutation_in _ (Permutation_sym (sort_perm by_timestamp _))).
        apply in_or_app. right. left. reflexivity. }
      apply in_map_iff. exists (localMessage p). split; auto.
      rewrite String.eqb_refl. reflexivity.
    + intros m Hin Hne. apply in_map_iff. exists m. split; auto.
      rewrite Hid. apply String.eqb_neq in Hne. rewrite Hne. reflexivity.
    + apply length_map.
    + unfold handleSend_resolved. destruct (shownRecipient p); reflexivity.
    + unfold handleSend_resolved. destruct (shownRecipient p); reflexivity.
  - intros V Vn Va. apply arrivals_complete; auto.
    rewrite E. apply valid_times_append; auto. rewrite Ht. exact Vn.
Qed.

Lemma resolved_send_marks_own_message_witness :
  let st := setRecipient "0xBB" (setNewMessage "hello" initial) in
  exists st1 p st2,
    handleSend_submit me "u1" 1000 st = Normal (st1, Some p) /\
    run me st1 (map Received [peer_message "m9" 1500 "ping"]) = Normal st2 /\
    map (fun m => (id m, status m)) (messages (handleSend_resolved p st2))
      = [("u1", sent); ("m9", delivered)] /\
    In (set_status sent (localMessage p)) (messages (handleSend_resolved p st2)).
Proof.
  intros st.
  destruct (handleSend_submit me "u1" 1000 st) as [[st1 [p|]]|] eqn:E;
    try (vm_compute in E; discriminate).
  destruct (resolved_send_marks_own_message me "u1" 1000 st st1 p
              [peer_message "m9" 1500 "ping"] E) as [H T].
  destruct T as [st2 R]; try (repeat constructor).
  exists st1, p, st2. split; [reflexivity|]. split; [exact R|].
  split; [|exact (proj1 (H st2 R))].
  vm_compute in E. inversion E; subst.
  vm_compute in R. inversion R; subst. reflexivity.
Defined.

(** A rejected send whose message is the newest of the list, with nothing
    arriving in between. *)
Lemma rejected_send_marks_own_message_witness :
  let st := setRecipient "0xBB" (setNewMessage "hello"
              (on_loaded me [peer_message "m1" 500 "old"] initial)) in
  exists st' p,
    handleSend_submit me "u1" 1000 st = Normal (st', Some p) /\
    exists l',
      messages (handleSend_rejected st')
      = (l' ++ [set_status failed (localMessage p)])%list.
Proof.
  intros st.
  destruct (handleSend_submit me "u1" 1000 st) as [[st' [p|]]|] eqn:E;
    try (vm_compute in E; discriminate).
  exists st', p. split; [reflexivity|].
  apply (rejected_send_marks_own_message me "u1" 1000 st st' p E).
  simpl. intros m [<- | []]. simpl. lia.
Defined.

(** *** The derived conversation list *)

Lemma sort_newest_first l : newest_first (sort by_recency l).
Proof.
  apply sort_sorted; unfold by_recency; intros; lia.
Qed.

(** Where the participants of a summary come from. *)
Lemma built_origin l k v :
  In (k, v) (built l) ->
  exists x, In x l /\ conversationId x = k /\
            participants v = message_participants x /\ is_group v = false.
Proof.
  revert k v. induction l as [|x l IH] using rev_ind; intros k v H.
  - destruct H.
  - rewrite built_snoc in H. unfold visited in H.
    assert (Old : In (k, v) (built l) ->
                  exists y, In y (l ++ [x]) /\ conversationId y = k /\
                            participants v = message_participants y /\
                            is_group v = false).
    { intros Hin. destruct (IH k v Hin) as (y & Hy & R).
      exists y. split; auto. apply in_or_app. auto. }
    destruct (map_get (conversationId x) (built l)) as [conv|] eqn:G.
    + destruct (timestamp x >? last_message_time conv)%Z; auto.
      apply map_mutate_In in H as [[-> ->] | H]; auto.
      apply map_get_In in G. destruct (IH _ _ G) as (y & Hy & K & P & Gr).
      exists y. simpl. repeat split; auto. apply in_or_app. auto.
    + apply in_app_or in H as [H | [H | []]]; auto.
      inversion H; subst. exists x. simpl. repeat split; auto.
      apply in_or_app. right. left. reflexivity.
Qed.

Lemma NoDup_map_filter {A B} (f : A -> B) (g : A -> bool) l :
  NoDup (map f l) -> NoDup (map f (filter g l)).
Proof.
  induction l as [|a l IH]; simpl; intros N; auto.
  inversion N as [|? ? Na N']; subst.
  destruct (g a); simpl; auto. constructor; auto.
  intros H. apply Na. apply in_map_iff in H as (b & E & Hb).
  apply filter_In in Hb as [Hb _]. rewrite <- E. apply in_map. exact Hb.
Qed.

Lemma map_values_ids l :
  map conv_id (map_values (built l)) = map fst (built l).
Proof.
  destruct (built_keyed l) as [_ K]. unfold map_values.
  rewrite map_map. apply map_ext_in. intros [k v] H. simpl. auto.
Qed.

(** X12.  The list handed to the page is ordered newest first and has one entry
    per conversation id. *)
Theorem derived_list_is_ordered_and_unique w l convs :
  generateConversationsFromMessages w l = Normal (Some convs) ->
  newest_first convs /\ NoDup (map conv_id convs).
Proof.
  unfold generateConversationsFromMessages.
  destruct w as [w|]; [|discriminate].
  destruct (truthy w); [|discriminate].
  intros E. apply and_then_normal in E as (cm & B & E).
  apply build_map_normal in B. subst cm.
  inversion E; subst convs; clear E. split.
  - apply sort_newest_first.
  - eapply Permutation_NoDup.
    + apply Permutation_map. symmetry. apply sort_perm.
    + apply NoDup_map_filter. rewrite map_values_ids.
      apply built_keyed.
Qed.

Lemma derived_list_is_ordered_and_unique_witness :
  exists convs,
    generateConversationsFromMessages me tie = Normal (Some convs) /\
    List.length convs = 1 /\
    newest_first convs /\ NoDup (map conv_id convs).
Proof.
  destruct (generateConversationsFromMessages me tie) as [[convs|]|] eqn:E;
    try (vm_compute in E; discriminate).
  exists convs. split; [reflexivity|].
  split; [vm_compute in E; inversion E; reflexivity|].
  apply (derived_list_is_ordered_and_unique me tie convs E).
Defined.

(** X13.  Every derived conversation is one of the wallet's: its participants
    are the sender and receiver, in sorted order, of a message of the list
    filed under its id, the lower-cased wallet address is one of them, and
    it is never a group. *)
Theorem derived_conversations_are_own w l convs conv :
  generateConversationsFromMessages (Some w) l = Normal (Some convs) ->
  In conv convs ->
  In (toLowerCase w) (participants conv)
  /\ is_group conv = false
  /\ exists x, In x l /\ conversationId x = conv_id conv /\
               participants conv = message_participants x.
Proof.
  unfold generateConversationsFromMessages.
  destruct (truthy w); [|discriminate].
  intros E Hin. apply and_then_normal in E as (cm & B & E).
  apply build_map_normal in B. subst cm.
  inversion E; subst convs; clear E.
  apply (Permutation_in _ (sort_perm by_recency _)) in Hin.
  apply filter_In in Hin as [Hin Hw].
  unfold map_values in Hin. apply in_map_iff in Hin as ([k v] & Ev & Hin).
  simpl in Ev. subst v.
  destruct (built_keyed l) as [_ K].
  destruct (built_origin l k conv Hin) as (x & Hx & Kx & P & G).
  split; [|split; auto].
  - apply existsb_exists in Hw as (y & Hy & Ey).
    apply String.eqb_eq in Ey. subst y. exact Hy.
  - exists x. rewrite (K _ _ Hin). auto.
Qed.

Lemma derived_conversations_are_own_witness :
  exists convs conv,
    generateConversationsFromMessages (Some "0xAA") tie = Normal (Some convs) /\
    In conv convs /\
    In (toLowerCase "0xAA") (participants conv) /\
    is_group conv = false /\
    exists x, In x tie /\ conversationId x = conv_id conv /\
              participants conv = message_participants x.
Proof.
  destruct (generateConversationsFromMessages (Some "0xAA") tie)
    as [[[|conv convs]|]|] eqn:E; try (vm_compute in E; discriminate).
  exists (conv :: convs), conv. split; [reflexivity|].
  split; [left; reflexivity|].
  apply (derived_conversations_are_own "0xAA" tie (conv :: convs) conv E).
  left. reflexivity.
Defined.

End ClientExtra.

(** ** What the Messages page shows *)

Module ViewFacts.
Import Js Client View JsFacts ClientFacts ClientScenario.

Lemma includes_In l x : includes l x = true <-> In x l.
Proof.
  unfold includes. rewrite existsb_exists. split.
  - intros (y & Hy & E). apply String.eqb_eq in E. subst. exact Hy.
  - intros H. exists x. split; auto. apply String.eqb_refl.
Qed.

Lemma filter_nondecreasing (f : Message -> bool) l :
  nondecreasing l -> nondecreasing (filter f l).
Proof.
  unfold nondecreasing. induction 1 as [|a l S IH F]; simpl.
  - constructor.
  - destruct (f a); auto. constructor; auto.
    rewrite Forall_forall in *. intros x Hx.
    apply filter_In in Hx as [Hx _]. auto.
Qed.

(** X14.  The messages shown for the selection are messages of the list, in the
    order of the list.  For a selected conversation they are exactly those
    whose sender and receiver are both participants, so a participant's
    message to itself is shown in each of its conversations; with nothing
    selected and no recipient typed nothing is shown. *)
Theorem shown_messages_are_the_threads w st :
  (forall m, In m (getConversationMessages w st) -> In m (messages st))
  /\ (nondecreasing (messages st) ->
      nondecreasing (getConversationMessages w st))
  /\ (forall conv m,
        selectedConversation st = Some conv ->
        (In m (getConversationMessages w st) <->
         In m (messages st) /\ In (sender m) (participants conv) /\
         In (receiver m) (participants conv)))
  /\ (selectedConversation st = None -> recipient st = "" ->
      getConversationMessages w st = []).
Proof.
  unfold getConversationMessages. split; [|split; [|split]].
  - intros m. destruct (selectedConversation st) as [conv|].
    + intros H. apply filter_In in H. tauto.
    + destruct (negb (truthy (recipient st))); [intros []|].
      intros H. apply filter_In in H. tauto.
  - intros S. destruct (selectedConversation st) as [conv|].
    + apply filter_nondecreasing. exact S.
    + destruct (negb (truthy (recipient st))); [constructor|].
      apply filter_nondecreasing. exact S.
  - intros conv m ->. rewrite filter_In, andb_true_iff, !includes_In. tauto.
  - intros -> ->. reflexivity.
Qed.

Lemma length_take k s : String.length (take k s) = Nat.min k (String.length s).
Proof.
  revert s. induction k as [|k IH]; intros [|c s]; simpl; auto.
Qed.

Lemma length_drop k s : String.length (drop k s) = String.length s - k.
Proof.
  revert s. induction k as [|k IH]; intros [|c s]; simpl; auto.
Qed.

Lemma take_drop k s : take k s ++ drop k s = s.
Proof.
  revert s. induction k as [|k IH]; intros [|c s]; simpl; auto.
  rewrite IH. reflexivity.
Qed.

Lemma take_all k s : String.length s <= k -> take k s = s.
Proof.
  revert s. induction k as [|k IH]; intros [|c s]; simpl; intros H; auto.
  - lia.
  - rewrite IH by lia. reflexivity.
Qed.

Lemma drop_drop j k s : drop j (drop k s) = drop (k + j) s.
Proof.
  revert s. induction k as [|k IH]; intros s; simpl; auto.
  destruct s as [|c s]; simpl; auto. destruct j; reflexivity.
Qed.

Lemma length_append s t :
  String.length (s ++ t) = String.length s + String.length t.
Proof. induction s as [|c s IH]; simpl; auto. Qed.

Lemma slice_head s : slice s 0 (Some 6%Z) = take 6 s.
Proof.
  unfold slice. change (6 <? 0)%Z with false. change (0 <? 0)%Z with false.
  cbv iota.
  replace (Z.to_nat (Z.min 0 (Z.of_nat (String.length s)))) with 0 by lia.
  simpl drop.
  destruct (Nat.le_gt_cases 6 (String.length s)) as [H | H].
  - replace (Z.to_nat _) with 6 by lia. reflexivity.
  - replace (Z.to_nat _) with (String.length s) by lia.
    rewrite !take_all by lia. reflexivity.
Qed.

Lemma slice_tail s : slice s (-4) None = drop (String.length s - 4) s.
Proof.
  unfold slice. change (-4 <? 0)%Z with true. cbv iota.
  replace (Z.to_nat (Z.max (Z.of_nat (String.length s) + -4) 0))
    with (String.length s - 4) by lia.
  apply take_all. rewrite length_drop. lia.
Qed.

(** X15.  [shortenAddress] gives the first six characters, three dots and the
    last four; the result has thirteen characters at most, and for an
    address of ten characters or more the two ends do not overlap. *)
Theorem shortenAddress_shape a :
  String.length (shortenAddress a)
  = Nat.min 6 (String.length a) + 3 + Nat.min 4 (String.length a)
  /\ (10 <= String.length a ->
      exists head middle tail,
        a = head ++ middle ++ tail /\
        String.length head = 6 /\ String.length tail = 4 /\
        shortenAddress a = head ++ "..." ++ tail).
Proof.
  unfold shortenAddress. rewrite slice_head, slice_tail. split.
  - rewrite !length_append, length_take, length_drop.
    change (String.length "...") with 3. lia.
  - intros H.
    exists (take 6 a), (take (String.length a - 10) (drop 6 a)),
           (drop (String.length a - 4) a).
    split; [|split; [|split]]; auto.
    + replace (drop (String.length a - 4) a)
        with (drop (String.length a - 10) (drop 6 a))
        by (rewrite drop_drop; f_equal; lia).
      rewrite take_drop, take_drop. reflexivity.
    + rewrite length_take. lia.
    + rewrite length_drop. lia.
Qed.

Example shortenAddress_wallet :
  shortenAddress "0x52908400098527886e0f7030069857d2e4169ee7" = "0x5290...9ee7"
  /\ shortenAddress "abc" = "abc...abc".
Proof. split; reflexivity. Qed.

Lemma select_selected w conv st :
  selectedConversation (handleConversationSelect w conv st) = Some conv.
Proof.
  unfold handleConversationSelect.
  destruct (find (is_other w) (participants conv)) as [o|]; [|reflexivity].
  destruct (truthy o); reflexivity.
Qed.

Lemma select_recipient w conv st :
  recipient (handleConversationSelect w conv st) =
  match find (is_other w) (participants conv) with
  | Some o => if truthy o then o else recipient st
  | None => recipient st
  end.
Proof.
  unfold handleConversationSelect.
  destruct (find (is_other w) (participants conv)) as [o|]; [|reflexivity].
  destruct (truthy o); reflexivity.
Qed.

Lemma new_message_blocks_send w uuid now st :
  handleSend_submit (Some w) uuid now (handleNewMessage st)
  = Normal (handleNewMessage st, None).
Proof.
  unfold handleSend_submit.
  destruct (negb (truthy (trim (newMessage (handleNewMessage st))))
            || negb (truthy w)); reflexivity.
Qed.

(** X16.  Selecting a conversation and sending.  After a selection the send goes
    to the recipient the page then holds; that is the first participant
    other than the lower-cased wallet address, and when there is none (a
    conversation with oneself) it is the recipient held before.  After
    "New" there is no recipient, and a send does nothing. *)
Theorem selection_sets_the_recipient w conv st :
  let st' := handleConversationSelect (Some w) conv st in
  selectedConversation st' = Some conv
  /\ targetRecipient w st' = recipient st'
  /\ (forall o, find (is_other (Some w)) (participants conv) = Some o ->
                o <> "" -> recipient st' = o /\ o <> toLowerCase w /\
                           In o (participants conv))
  /\ (find (is_other (Some w)) (participants conv) = None ->
      recipient st' = recipient st)
  /\ (forall uuid now,
        handleSend_submit (Some w) uuid now (handleNewMessage st')
        = Normal (handleNewMessage st', None)).
Proof.
  cbv zeta. split; [apply select_selected|].
  split; [|split; [|split]].
  - unfold targetRecipient. rewrite select_selected, select_recipient.
    change (fun p => negb (String.eqb p (toLowerCase w)))
      with (is_other (Some w)).
    destruct (find (is_other (Some w)) (participants conv)) as [o|];
      [|reflexivity].
    simpl. destruct (truthy o); reflexivity.
  - intros o F N. rewrite select_recipient, F.
    assert (T : truthy o = true) by (destruct o; [congruence | reflexivity]).
    rewrite T. split; auto.
    apply find_some in F as [Hin F]. split; auto.
    unfold is_other in F. apply negb_true_iff, String.eqb_neq in F. exact F.
  - intros F. rewrite select_recipient, F. reflexivity.
  - intros uuid now. apply new_message_blocks_send.
Qed.

Example selection_of_own_notes :
  let st := setRecipient "0xbb" initial in
  let notes :=
    {| conv_id := "0xaa-0xaa"; participants := ["0xaa"; "0xaa"];
       last_message := "note"; last_message_time := 10%Z;
       is_group := false |} in
  targetRecipient "0xAA" (handleConversationSelect (Some "0xAA") notes st)
  = "0xbb".
Proof. reflexivity. Qed.

(** X17.  Nothing is sent for a blank input.  [handleSend] returns early,
    leaving the state as it is, exactly when there is no wallet address, or
    the message line holds white space only, or the recipient it would
    send to does; white space is all that [trim] strips. *)
Theorem blank_input_is_not_sent w uuid now st :
  handleSend_submit w uuid now st = Normal (st, None) <->
  has_wallet w = false
  \/ blank (newMessage st) = true
  \/ exists a, w = Some a /\ blank (targetRecipient a st) = true.
Proof.
  unfold handleSend_submit, has_wallet. destruct w as [a|].
  2:{ split; auto. }
  rewrite !truthy_trim, !negb_involutive.
  destruct (blank (newMessage st)) eqn:Bm; simpl.
  { split; auto. }
  destruct (truthy a) eqn:Ta; simpl.
  2:{ split; auto. }
  destruct (blank (targetRecipient a st)) eqn:Bt.
  { split; eauto. }
  split.
  - intros E. apply and_then_normal in E as (? & _ & E). discriminate.
  - intros [H | [H | (a' & E & H)]]; try discriminate.
    inversion E; subst. congruence.
Qed.

Example blank_inputs :
  blank "   " = true /\ trim "  hello  " = "hello" /\
  blank (String (ascii_of_nat 194) (String (ascii_of_nat 160) "")) = true /\
  blank (String (ascii_of_nat 226)
           (String (ascii_of_nat 128) (String (ascii_of_nat 131) ""))) = true /\
  handleSend_submit me "u1" 1000
    (setNewMessage
       (String (ascii_of_nat 194) (String (ascii_of_nat 160) " "))
       (setRecipient "0xBB" initial))
  = Normal (setNewMessage
              (String (ascii_of_nat 194) (String (ascii_of_nat 160) " "))
              (setRecipient "0xBB" initial), None).
Proof. repeat split; reflexivity. Qed.

End ViewFacts.

(** ** The application shell *)

Module AppFacts.
Import Js App.

Lemma coherent_signed_in a t w :
  present a = true -> present t = true -> coherent (auth (signed_in a t w)).
Proof. intros Ha Ht. unfold coherent. simpl. auto. Qed.

Lemma coherent_signed_out w : coherent (auth (signed_out w)).
Proof. unfold coherent. simpl. auto. Qed.

Lemma coherent_setLoading b w :
  coherent (auth w) -> coherent (auth (setLoading b w)).
Proof. unfold coherent. simpl. auto. Qed.

Ltac keeps C R :=
  split;
  [ first [exact C | unfold coherent; simpl; auto]
  | first [exact R | unfold read_present; simpl; auto] ].

Lemma app_step_coherent w e :
  coherent (auth w) /\ read_present w ->
  coherent (auth (app_step w e)) /\ read_present (app_step w e).
Proof.
  intros [C R]. destruct e as [g | si | ev session | a | s]; simpl.
  - unfold checkAuth. destruct g as [|session]; [keeps C R|].
    destruct (is_string (stored_isAuthenticated (storage w)) "true");
      destruct (present (stored_walletAddress (storage w))) eqn:Pa;
      destruct (present (stored_userType (storage w))) eqn:Pt;
      destruct session; cbn [andb];
      try destruct (is_string (stored_userType (storage w)) "email");
      keeps C R.
  - unfold checkAuth_resume. unfold read_present in R.
    destruct (restoring w) as [[a t]|] eqn:E;
      [|split; [exact C | unfold read_present; rewrite E; exact I]].
    destruct R as [Pa Pt].
    destruct si as [|[|]]; split;
      try (unfold coherent; simpl; auto; fail);
      unfold read_present; simpl; exact I.
  - unfold onAuthStateChange.
    destruct (String.eqb ev "SIGNED_IN" && session);
      destruct (present (stored_walletAddress (storage w))) eqn:Pa;
      destruct (present (stored_userType (storage w))) eqn:Pt;
      destruct (String.eqb ev "SIGNED_OUT"); cbn [andb];
      keeps C R.
  - unfold logout. keeps C R.
  - keeps C R.
Qed.

(** X18.  The three pieces of authentication state move together.  Whatever the
    auth client answers, whatever the storage holds and in whatever order
    things happen, the shell is authenticated exactly when it holds a
    non-empty wallet address and a non-empty user type, and holds neither
    otherwise. *)
Theorem auth_state_stays_coherent s es :
  coherent (auth (app_run (start s) es)).
Proof.
  assert (G : forall w, coherent (auth w) /\ read_present w ->
                        coherent (auth (app_run w es)) /\
                        read_present (app_run w es)).
  { induction es as [|e es IH]; intros w C; simpl; auto.
    apply IH. apply app_step_coherent. exact C. }
  apply G. unfold coherent, read_present. simpl. auto.
Qed.

Lemma is_string_iff o v : is_string o v = true <-> o = Some v.
Proof.
  unfold is_string. destruct o as [x|]; [|split; discriminate].
  rewrite String.eqb_eq. split; congruence.
Qed.

Ltac outcome :=
  repeat split; auto; try discriminate; try congruence;
  try (right; repeat split; auto; fail);
  try (left; repeat split; auto; fail).

(** X19.  What [checkAuth] leaves behind.  Up to its sign-in it either ends
    the loading phase, authenticated exactly for a live session over a
    storage marked ["true"] with address and user type (which it takes
    over, leaving the storage alone), and signed out over a cleared storage
    otherwise; or, when it signs in, it only remembers the stored address
    and user type.  Once the sign-in has ended it ends the loading phase,
    authenticated exactly when the sign-in gave a session, with the address
    and user type remembered; the storage is then as the events in between
    left it, so a sign-out during the wait ends with an authenticated shell
    over a cleared storage. *)
Theorem checkAuth_outcome g w :
  (restores g (storage w) = false ->
   let w' := checkAuth g w in
   loading (auth w') = false /\ restoring w' = restoring w
   /\ (isAuthenticated (auth w') = true <->
       g = Answered true /\
       stored_isAuthenticated (storage w) = Some "true" /\
       present (stored_walletAddress (storage w)) = true /\
       present (stored_userType (storage w)) = true)
   /\ (isAuthenticated (auth w') = true ->
       storage w' = storage w /\
       walletAddress (auth w') = stored_walletAddress (storage w) /\
       userType (auth w') = stored_userType (storage w))
   /\ (isAuthenticated (auth w') = false ->
       storage w' = cleared /\
       walletAddress (auth w') = None /\ userType (auth w') = None))
  /\ (restores g (storage w) = true ->
      checkAuth g w
      = set_restoring
          (Some (stored_walletAddress (storage w),
                 stored_userType (storage w))) w)
  /\ (forall si a t,
        restoring w = Some (a, t) ->
        let w' := checkAuth_resume si w in
        loading (auth w') = false /\ restoring w' = None
        /\ (isAuthenticated (auth w') = true <-> si = Answered true)
        /\ (si = Answered true ->
            storage w' = storage w /\
            walletAddress (auth w') = a /\ userType (auth w') = t)
        /\ (si <> Answered true ->
            storage w' = cleared /\
            walletAddress (auth w') = None /\ userType (auth w') = None))
  /\ (restores g (storage w) = true ->
      forall session,
        let w' := app_run w [ CheckAuth g; AuthChanged "SIGNED_OUT" session;
                              SignInEnded (Answered true) ] in
        isAuthenticated (auth w') = true /\ storage w' = cleared /\
        walletAddress (auth w') = stored_walletAddress (storage w)).
Proof.
  assert (P2 : restores g (storage w) = true ->
               checkAuth g w
               = set_restoring
                   (Some (stored_walletAddress (storage w),
                          stored_userType (storage w))) w).
  { unfold restores, checkAuth. destruct g as [|session]; [discriminate|].
    destruct (is_string (stored_isAuthenticated (storage w)) "true"); simpl;
      rewrite ?andb_false_r; simpl; try discriminate.
    destruct (present (stored_walletAddress (storage w))); simpl;
      rewrite ?andb_false_r; simpl; try discriminate.
    destruct (present (stored_userType (storage w))); simpl;
      rewrite ?andb_false_r; simpl; try discriminate.
    destruct session; simpl; [discriminate|].
    destruct (is_string (stored_userType (storage w)) "email"); simpl;
      [discriminate | reflexivity]. }
  split; [|split; [exact P2|split]].
  - cbv zeta. unfold restores, checkAuth.
    destruct g as [|session]; simpl; [intros _; outcome; intros [X _]; discriminate|].
    destruct (is_string (stored_isAuthenticated (storage w)) "true") eqn:Ea;
      simpl; rewrite ?andb_false_r; simpl.
    2:{ intros _. outcome. intros (_ & X & _). apply is_string_iff in X.
        congruence. }
    apply is_string_iff in Ea.
    destruct (present (stored_walletAddress (storage w))); simpl;
      rewrite ?andb_false_r; simpl.
    2:{ intros _. outcome. intros (_ & _ & X & _). discriminate. }
    destruct (present (stored_userType (storage w))); simpl;
      rewrite ?andb_false_r; simpl.
    2:{ intros _. outcome. intros (_ & _ & _ & X). discriminate. }
    destruct session; simpl; [intros _; outcome|].
    destruct (is_string (stored_userType (storage w)) "email"); simpl;
      [|discriminate].
    intros _. outcome. intros (X & _). discriminate.
  - intros si a t R. cbv zeta. unfold checkAuth_resume. rewrite R.
    destruct si as [|[|]]; simpl; outcome.
  - intros R session. cbv zeta. simpl. rewrite (P2 R).
    unfold onAuthStateChange. simpl. unfold checkAuth_resume. simpl.
    auto.
Qed.

Example checkAuth_restores_wallet :
  let s := {| stored_walletAddress := Some "0xaa";
              stored_isAuthenticated := Some "true";
              stored_userType := Some "metamask" |} in
  walletAddress
    (auth (app_run (start s)
             [CheckAuth (Answered false); SignInEnded (Answered true)]))
    = Some "0xaa"
  /\ storage (app_run (start s)
                [CheckAuth (Answered false); SignInEnded (Answered false)])
     = cleared
  /\ isAuthenticated
       (auth (app_run (start s)
                [CheckAuth (Answered false); AuthChanged "SIGNED_OUT" false;
                 SignInEnded (Answered true)])) = true
  /\ storage (app_run (start s)
                [CheckAuth (Answered false); AuthChanged "SIGNED_OUT" false;
                 SignInEnded (Answered true)]) = cleared.
Proof. repeat split; reflexivity. Qed.

(** X20.  The sign-in that restores a session.  [checkAuth] signs in only when
    there is no live session and the storage names a user that is not an
    email user; it does so with the synthetic email of the stored address,
    and for an address without [@] the identity resolver of the database
    maps a principal with that email back to the stored address. *)
Theorem restored_session_has_stored_identity g s e pw u :
  credentials g s = Some (e, pw) ->
  g = Answered false
  /\ stored_userType s <> Some "email"
  /\ exists a, stored_walletAddress s = Some a /\ a <> "" /\
       e = synthetic_email a /\ pw = synthetic_password a /\
       (Sql.occurs "@" a = false ->
        Auth.get_user_wallet_address {| Auth.uid := u; Auth.email := Some e |}
        = Some a).
Proof.
  unfold credentials, restores. intros H.
  destruct g as [|session]; [discriminate|].
  destruct session; simpl in H.
  - destruct (is_string (stored_isAuthenticated s) "true"); simpl in H;
      [|discriminate].
    destruct (present (stored_walletAddress s)); simpl in H; [|discriminate].
    destruct (present (stored_userType s)); simpl in H; discriminate.
  - destruct (is_string (stored_isAuthenticated s) "true"); simpl in H;
      [|discriminate].
    destruct (present (stored_walletAddress s)) eqn:Pa; simpl in H;
      [|discriminate].
    destruct (present (stored_userType s)); simpl in H; [|discriminate].
    destruct (is_string (stored_userType s) "email") eqn:Em; simpl in H;
      [discriminate|].
    destruct (stored_walletAddress s) as [a|]; [|discriminate].
    inversion H; subst e pw; clear H.
    split; [reflexivity|]. split.
    { intros X. apply is_string_iff in X. congruence. }
    exists a. split; [reflexivity|]. split.
    { intros ->. discriminate. }
    split; [reflexivity|]. split; [reflexivity|].
    intros O. rewrite ResolverFacts.resolver_unfold. cbn [Auth.email Auth.uid].
    assert (L : Sql.like Auth.reserved_pattern (synthetic_email a) = true).
    { apply ResolverFacts.reserved_like. exists a. reflexivity. }
    rewrite L. f_equal.
    apply (SqlFacts.split_part_prefix a "@" "kraken.web3" O).
Qed.

Lemma restored_session_has_stored_identity_witness :
  let s := {| stored_walletAddress := Some "0xaa";
              stored_isAuthenticated := Some "true";
              stored_userType := Some "metamask" |} in
  credentials (Answered false) s
    = Some ("0xaa@kraken.web3", "kraken_0xaa_secure_2025")
  /\ Auth.get_user_wallet_address
       {| Auth.uid := 7%N; Auth.email := Some "0xaa@kraken.web3" |}
     = Some "0xaa".
Proof.
  intros s. split; [reflexivity|].
  destruct (restored_session_has_stored_identity (Answered false) s
              "0xaa@kraken.web3" "kraken_0xaa_secure_2025" 7%N eq_refl)
    as (_ & _ & a & Ha & _ & _ & _ & R).
  inversion Ha; subst a. apply R. reflexivity.
Defined.

End AppFacts.
